(** * OMG-TV playlist transformer: a shallow embedding of
      [src/playlist-transformer.js] and the properties of its catalog.

    Strings are Rocq [string]s, read as the ASCII fragment of JavaScript
    strings: [toLowerCase] folds 'A'..'Z' and [trim] strips the ASCII white
    space characters.  JavaScript objects used as dictionaries ([tvgData],
    [headers]) and the [Map] of remapping rules are [gmap string string];
    the [Set] of genres is a list without repetition in insertion order.
    Channel objects are shared between arrays in the source, so they live in
    an explicit heap and the arrays hold references (indices) into it.

    The methods of the class take the instance state and return the new
    one.  File and network reads are inputs: what reading the rule file gave
    and the texts of the playlists.  Console output is not modelled, except
    for the two counters [loadRemappingRules] prints.

    The first part embeds the source, function by function; the second
    relates the reference-level state to plain lists of channel values
    ([merged], [union_first]) and derives the properties from them. *)

From Stdlib Require Import Ascii String.
From stdpp Require Import base option list gmap strings fin_maps.

Local Open Scope string_scope.
Local Open Scope list_scope.

(** ** String primitives used by the source *)

Module JsString.

Definition is_ws (c : ascii) : bool :=
  let n := nat_of_ascii c in
  (Nat.leb 9 n && Nat.leb n 13) || Nat.eqb n 32.

Definition lower_char (c : ascii) : ascii :=
  let n := nat_of_ascii c in
  if Nat.leb 65 n && Nat.leb n 90 then ascii_of_nat (n + 32) else c.

(** [s.toLowerCase()] *)
Fixpoint toLowerCase (s : string) : string :=
  match s with
  | EmptyString => EmptyString
  | String c s' => String (lower_char c) (toLowerCase s')
  end.

Fixpoint trimStart (s : string) : string :=
  match s with
  | EmptyString => EmptyString
  | String c s' => if is_ws c then trimStart s' else s
  end.

Fixpoint trimEnd (s : string) : string :=
  match s with
  | EmptyString => EmptyString
  | String c s' =>
      match trimEnd s' with
      | EmptyString => if is_ws c then EmptyString else String c EmptyString
      | r => String c r
      end
  end.

(** [s.trim()] *)
Definition trim (s : string) : string := trimEnd (trimStart s).

(** [s.startsWith(p)] *)
Definition startsWith (p s : string) : bool := String.prefix p s.
#[global] Arguments startsWith : simpl never.

(** [s.substring(n)] *)
Fixpoint substring_from (n : nat) (s : string) : string :=
  match n, s with
  | O, _ => s
  | S _, EmptyString => EmptyString
  | S n', String _ s' => substring_from n' s'
  end.

(** [s.includes(sub)] *)
Fixpoint includes (sub s : string) : bool :=
  startsWith sub s ||
  match s with
  | EmptyString => false
  | String _ s' => includes sub s'
  end.

(** [s.split(sep)] for a one-character separator; never the empty list. *)
Fixpoint split (sep : ascii) (s : string) : list string :=
  match s with
  | EmptyString => [EmptyString]
  | String c s' =>
      if Ascii.eqb c sep then EmptyString :: split sep s'
      else match split sep s' with
           | h :: t => String c h :: t
           | [] => [String c EmptyString]
           end
  end.

(** [s.replace(pat, rep)] with a string pattern: first occurrence only. *)
Fixpoint replace (pat rep s : string) : string :=
  if startsWith pat s then rep +:+ substring_from (String.length pat) s
  else match s with
       | EmptyString => EmptyString
       | String c s' => String c (replace pat rep s')
       end.

(** [s.replace(/c/g, '')] *)
Fixpoint remove_all (c : ascii) (s : string) : string :=
  match s with
  | EmptyString => EmptyString
  | String d s' => if Ascii.eqb d c then remove_all c s' else String d (remove_all c s')
  end.

(** [arr.join(sep)] *)
Fixpoint join (sep : string) (l : list string) : string :=
  match l with
  | [] => EmptyString
  | [x] => x
  | x :: rest => x +:+ sep +:+ join sep rest
  end.

(** JavaScript truthiness of a possibly undefined string. *)
Definition truthy (o : option string) : bool :=
  match o with
  | Some EmptyString | None => false
  | Some _ => true
  end.

(** [a || b] on a possibly undefined string with a string fallback. *)
Definition or_else (o : option string) (d : string) : string :=
  match o with
  | Some EmptyString | None => d
  | Some s => s
  end.

End JsString.

Import JsString.

(** ** The three regular expressions of the source *)

Module Regex.

Definition quote : ascii := ascii_of_nat 34.

(** Longest prefix of characters satisfying [p], and what follows it. *)
Fixpoint span (p : ascii -> bool) (s : string) : string * string :=
  match s with
  | EmptyString => (EmptyString, EmptyString)
  | String c s' =>
      if p c then let '(a, b) := span p s' in (String c a, b)
      else (EmptyString, s)
  end.

(** A quote, one or more characters other than a quote, and a quote,
    anchored at the head of [s]: the captured text and the rest of the
    input after the closing quote. *)
Definition quoted (s : string) : option (string * string) :=
  match s with
  | String c s' =>
      if Ascii.eqb c quote then
        match span (fun d => negb (Ascii.eqb d quote)) s' with
        | (String v0 v, String _ rest) => Some (String v0 v, rest)
        | _ => None
        end
      else None
  | EmptyString => None
  end.

(** [s.match(re)] where [re] is the literal [lit] followed by a quoted
    capture group: the first capture group of the leftmost match. *)
Fixpoint match_attr (lit s : string) : option string :=
  match
    (if startsWith lit s then quoted (substring_from (String.length lit) s)
     else None)
  with
  | Some (v, _) => Some v
  | None =>
      match s with
      | EmptyString => None
      | String _ s' => match_attr lit s'
      end
  end.

(** The character class [[a-zA-Z-]]. *)
Definition is_key_char (c : ascii) : bool :=
  let n := nat_of_ascii c in
  (Nat.leb 65 n && Nat.leb n 90) || (Nat.leb 97 n && Nat.leb n 122) || Nat.eqb n 45.

(** One or more key characters, an equals sign and a quoted value,
    anchored at the head of [s]: the whole matched text. *)
Definition pair_here (s : string) : option string :=
  match span is_key_char s with
  | (String k0 k, String e r) =>
      if Ascii.eqb e "="%char then
        match quoted r with
        | Some (v, _) =>
            Some (String k0 k +:+ "=" +:+ String quote v +:+ String quote EmptyString)
        | None => None
        end
      else None
  | _ => None
  end.

(** The global match of the attribute pattern, or the empty array: the
    matched texts from the left, without overlap.  [skip] is the distance
    to the [lastIndex] of the regex. *)
Fixpoint match_pairs_from (skip : nat) (s : string) : list string :=
  match s with
  | EmptyString => []
  | String _ s' =>
      match skip with
      | S k => match_pairs_from k s'
      | O =>
          match pair_here s with
          | Some m => m :: match_pairs_from (String.length m - 1) s'
          | None => match_pairs_from 0 s'
          end
      end
  end.

Definition match_pairs (s : string) : list string := match_pairs_from 0 s.

End Regex.

Import Regex.

(** ** Data model *)

(** The object built for one playlist item ([currentChannel]); [url] is
    undefined until the stream URL line is met. *)
Record M3UChannel := {
  name : string;
  group : string;
  tvg : gmap string string;
  headers : gmap string string;
  url : option string
}.

Record StreamUrl := { su_url : option string; su_name : string }.

Record StreamInfo := {
  urls : list StreamUrl;
  si_headers : gmap string string;
  si_tvg : gmap string string
}.

Record BehaviorHints := { defaultVideoId : string; isLive : bool }.

(** The catalog unit built by [transformChannelToStremio]. *)
Record StremioChannel := {
  id : string;
  type : string;
  ch_name : string;
  genre : list string;
  posterShape : string;
  poster : option string;
  background : option string;
  logo : option string;
  description : string;
  runtime : string;
  behaviorHints : BehaviorHints;
  streamInfo : StreamInfo
}.

(** The instance state: [stremioData.genres], [stremioData.channels] (an
    array of references), [remappingRules], and the heap the references
    point into.  [processedIds] is only ever cleared and is left out. *)
Record PlaylistTransformer := {
  genres : list string;
  channels : list nat;
  remappingRules : gmap string string;
  heap : list StremioChannel
}.

Definition constructor : PlaylistTransformer :=
  {| genres := []; channels := []; remappingRules := ∅; heap := [] |}.

(** [Set.prototype.add] on the insertion-ordered genre set. *)
Definition set_add (g : string) (s : list string) : list string :=
  if bool_decide (g ∈ s) then s else s ++ [g].

Definition uncategorized : string := "Altri canali".

(** ** loadRemappingRules *)

Inductive ReadResult :=
| FileContent (content : string)
| ENOENT
| ReadError.

Record LoadLog := { ruleCount : nat; skippedCount : nat }.

Definition LF : ascii := ascii_of_nat 10.

(** The body of the [forEach] callback over the lines of the rule file. *)
Definition rule_line (st : gmap string string * LoadLog) (line : string)
  : gmap string string * LoadLog :=
  let '(rules, log) := st in
  let line := trim line in
  if bool_decide (line = EmptyString) || startsWith "#" line then st
  else
    let skip := (rules, {| ruleCount := ruleCount log; skippedCount := S (skippedCount log) |}) in
    match map (fun s => toLowerCase (trim s)) (split "="%char line) with
    | m3uId :: epgId :: _ =>
        if bool_decide (m3uId = EmptyString) || bool_decide (epgId = EmptyString) then skip
        else (<[m3uId := epgId]> rules,
              {| ruleCount := S (ruleCount log); skippedCount := skippedCount log |})
    | _ => skip
    end.

Definition loadRemappingRules (file : ReadResult) (t : PlaylistTransformer)
  : PlaylistTransformer * option LoadLog :=
  match file with
  | FileContent content =>
      let '(rules, log) :=
        fold_left rule_line (split LF content)
                  (remappingRules t, {| ruleCount := 0; skippedCount := 0 |}) in
      ({| genres := genres t; channels := channels t;
          remappingRules := rules; heap := heap t |}, Some log)
  | ENOENT | ReadError => (t, None)
  end.

(** ** parseVLCOpts *)

(** [lines] is the array from [currentIndex] on; the result is the headers
    object and the number of option lines consumed
    ([nextIndex - currentIndex]). *)
Fixpoint parseVLCOpts_from (hdrs : gmap string string) (lines : list string)
  : gmap string string * nat :=
  match lines with
  | l :: rest =>
      if startsWith "#EXTVLCOPT:" l then
        let opt := trim (substring_from (String.length "#EXTVLCOPT:") l) in
        let hdrs' :=
          if startsWith "http-user-agent=" opt
          then <["User-Agent" := substring_from (String.length "http-user-agent=") opt]> hdrs
          else hdrs in
        let '(h, n) := parseVLCOpts_from hdrs' rest in (h, S n)
      else (hdrs, 0)
  | [] => (hdrs, 0)
  end.

Definition parseVLCOpts (lines : list string) : gmap string string * nat :=
  parseVLCOpts_from ∅ lines.

(** ** transformChannelToStremio *)

(** Lines 113-130: the identity of an entry after the remapping rules. *)
Definition channelId_of (rules : gmap string string) (channel : M3UChannel) : string :=
  let channelId := toLowerCase (or_else (tvg channel !! "id") (trim (name channel))) in
  match rules !! channelId with
  | Some remapped => toLowerCase remapped
  | None => channelId
  end.

(** [ch.streamInfo.tvg.id.toLowerCase() === channelId] *)
Definition has_key (channelId : string) (ch : StremioChannel) : bool :=
  match si_tvg (streamInfo ch) !! "id" with
  | Some i => bool_decide (toLowerCase i = channelId)
  | None => false
  end.

(** The same test through the reference [r]. *)
Definition has_tvg_id (h : list StremioChannel) (channelId : string) (r : nat) : bool :=
  match h !! r with
  | Some ch => has_key channelId ch
  | None => false
  end.

(** The conflict test of lines 117-119; it only decides a warning. *)
Definition isConflict (t : PlaylistTransformer) (remappedId : string) : bool :=
  existsb (has_tvg_id (heap t) remappedId) (channels t).

Definition stream_of (channel : M3UChannel) : StreamUrl :=
  {| su_url := url channel; su_name := name channel |}.

(** [existingChannel.streamInfo.urls.push(s)] *)
Definition push_url (s : StreamUrl) (ch : StremioChannel) : StremioChannel :=
  {| id := id ch; type := type ch; ch_name := ch_name ch; genre := genre ch;
     posterShape := posterShape ch; poster := poster ch;
     background := background ch; logo := logo ch;
     description := description ch; runtime := runtime ch;
     behaviorHints := behaviorHints ch;
     streamInfo := {| urls := urls (streamInfo ch) ++ [s];
                      si_headers := si_headers (streamInfo ch);
                      si_tvg := si_tvg (streamInfo ch) |} |}.

(** Lines 147-176: the object literal [transformedChannel]. *)
Definition new_channel (channelId : string) (channel : M3UChannel) : StremioChannel :=
  let id := "tv|" +:+ channelId in
  let name' := or_else (tvg channel !! "name") (name channel) in
  let group' := or_else (Some (group channel)) uncategorized in
  {| id := id; type := "tv"; ch_name := name'; genre := [group'];
     posterShape := "square";
     poster := tvg channel !! "logo";
     background := tvg channel !! "logo";
     logo := tvg channel !! "logo";
     description := "Canale: " +:+ name';
     runtime := "LIVE";
     behaviorHints := {| defaultVideoId := id; isLive := true |};
     streamInfo := {| urls := [stream_of channel];
                      si_headers := headers channel;
                      si_tvg := <["name" := name']> (<["id" := channelId]> (tvg channel)) |} |}.

Definition transformChannelToStremio (channel : M3UChannel) (t : PlaylistTransformer)
  : PlaylistTransformer * option nat :=
  let channelId := channelId_of (remappingRules t) channel in
  match List.find (has_tvg_id (heap t) channelId) (channels t) with
  | Some existingChannel =>
      ({| genres := genres t; channels := channels t;
          remappingRules := remappingRules t;
          heap := alter (push_url (stream_of channel)) existingChannel (heap t) |},
       None)
  | None =>
      let transformedChannel := new_channel channelId channel in
      let r := length (heap t) in
      ({| genres := set_add (or_else (Some (group channel)) uncategorized) (genres t);
          channels := channels t ++ [r];
          remappingRules := remappingRules t;
          heap := heap t ++ [transformedChannel] |},
       Some r)
  end.

(** ** parseM3U *)

(** Lines 205-219 and 224-229: the pending entry read off a metadata line. *)
Definition parse_tvg (metadata : string) : gmap string string :=
  fold_left
    (fun tvgData m =>
       match split "="%char m with
       | key :: value :: _ => <[replace "tvg-" EmptyString key := remove_all quote value]> tvgData
       | _ => tvgData
       end)
    (match_pairs metadata) ∅.

Definition parse_extinf (line : string) (hdrs : gmap string string) : M3UChannel :=
  let metadata := trim (substring_from 8 line) in
  {| name := trim (List.last (split ","%char metadata) EmptyString);
     group := default uncategorized (match_attr "group-title=" metadata);
     tvg := parse_tvg metadata;
     headers := hdrs;
     url := None |}.

Definition set_url (line : string) (channel : M3UChannel) : M3UChannel :=
  {| name := name channel; group := group channel; tvg := tvg channel;
     headers := headers channel; url := Some line |}.

(** The [for] loop of lines 201-240 over the lines still to visit.  [skip]
    counts the option lines already consumed by [parseVLCOpts], which the
    source jumps over with [i = nextIndex - 1].  The completed entry is
    handed to [emit]. *)
Fixpoint parse_lines {A : Type} (emit : M3UChannel -> A -> A) (skip : nat)
    (lines : list string) (currentChannel : option M3UChannel) (acc : A) : A :=
  match lines with
  | [] => acc
  | raw :: rest =>
      match skip with
      | S k => parse_lines emit k rest currentChannel acc
      | O =>
          let line := trim raw in
          if startsWith "#EXTINF:" line then
            let '(hdrs, n) := parseVLCOpts rest in
            parse_lines emit n rest (Some (parse_extinf line hdrs)) acc
          else if startsWith "http" line then
            match currentChannel with
            | Some channel =>
                parse_lines emit 0 rest None (emit (set_url line channel) acc)
            | None => parse_lines emit 0 rest None acc
            end
          else parse_lines emit 0 rest currentChannel acc
      end
  end.

(** Lines 232-236: transform the completed entry and push the result, when
    there is one, onto [stremioData.channels]. *)
Definition emit_channel (channel : M3UChannel) (t : PlaylistTransformer)
  : PlaylistTransformer :=
  let '(t', transformedChannel) := transformChannelToStremio channel t in
  match transformedChannel with
  | Some r =>
      {| genres := genres t'; channels := channels t' ++ [r];
         remappingRules := remappingRules t'; heap := heap t' |}
  | None => t'
  end.

Record ParseResult := {
  r_genres : list string;
  r_channels : list nat;
  r_epgUrl : option string
}.

Definition parse_epgUrl (lines : list string) : option string :=
  match lines with
  | l0 :: _ => if includes "url-tvg=" l0 then match_attr "url-tvg=" l0 else None
  | [] => None
  end.

Definition parseM3U (content : string) (t : PlaylistTransformer)
  : PlaylistTransformer * ParseResult :=
  let lines := split LF content in
  let t0 := {| genres := set_add uncategorized []; channels := [];
               remappingRules := remappingRules t; heap := heap t |} in
  let epgUrl := parse_epgUrl lines in
  let t1 := parse_lines emit_channel 0 lines None t0 in
  (t1, {| r_genres := genres t1; r_channels := channels t1; r_epgUrl := epgUrl |}).

(** ** loadAndTransform *)

Record Aggregate := {
  allChannels : list nat;
  allGenres : list string;
  allEpgUrls : list string
}.

Definition id_of (h : list StremioChannel) (r : nat) : option string := id <$> h !! r.

(** Lines 269-273 for one element of [result.channels]. *)
Definition add_channel (h : list StremioChannel) (all : list nat) (channel : nat) : list nat :=
  if existsb (fun existingChannel => bool_decide (id_of h existingChannel = id_of h channel)) all
  then all else all ++ [channel].

(** Lines 276-279. *)
Definition add_epgUrl (all : list string) (epgUrl : option string) : list string :=
  match epgUrl with
  | Some u => if truthy (Some u) && negb (bool_decide (u ∈ all)) then all ++ [u] else all
  | None => all
  end.

(** One turn of the loop of lines 264-280 on the fetched playlist text. *)
Definition load_playlist (st : PlaylistTransformer * Aggregate) (content : string)
  : PlaylistTransformer * Aggregate :=
  let '(t, agg) := st in
  let '(t', result) := parseM3U content t in
  (t', {| allChannels := fold_left (add_channel (heap t')) (r_channels result) (allChannels agg);
          allGenres := fold_left (fun s g => set_add g s) (r_genres result) (allGenres agg);
          allEpgUrls := add_epgUrl (allEpgUrls agg) (r_epgUrl result) |}).

Record Snapshot := {
  s_genres : list string;
  s_channels : list nat;
  s_epgUrl : option string
}.

(** [remapFile] is what reading [link.epg.remapping] gives and [playlists]
    the texts fetched for the playlist URLs, in order.  Failed fetches, which
    throw, and the call to the guide manager are outside the model. *)
Definition loadAndTransform (remapFile : ReadResult) (playlists : list string)
    (t : PlaylistTransformer) : PlaylistTransformer * Snapshot :=
  let '(t1, _) := loadRemappingRules remapFile t in
  let '(t2, agg) :=
    fold_left load_playlist playlists
              (t1, {| allChannels := []; allGenres := []; allEpgUrls := [] |}) in
  let combinedEpgUrl :=
    if Nat.ltb 0 (length (allEpgUrls agg)) then Some (join "," (allEpgUrls agg)) else None in
  (t2, {| s_genres := allGenres agg; s_channels := allChannels agg;
          s_epgUrl := combinedEpgUrl |}).

(** The channel objects an array of references denotes. *)
Definition deref (h : list StremioChannel) (refs : list nat) : list StremioChannel :=
  omap (fun r => h !! r) refs.

(** The channels of the catalog a run returns, read off the heap. *)
Definition catalog (out : PlaylistTransformer * Snapshot) : list StremioChannel :=
  deref (heap (fst out)) (s_channels (snd out)).

(** The channels of one parsed document, read off the heap. *)
Definition parsed (out : PlaylistTransformer * ParseResult) : list StremioChannel :=
  deref (heap (fst out)) (r_channels (snd out)).

(** Test texts are written with apostrophes where the playlist has double
    quotes. *)
Definition dq (s : string) : string :=
  (fix go s := match s with
               | EmptyString => EmptyString
               | String c s' => String (if Ascii.eqb c "'"%char then quote else c) (go s')
               end) s.

Definition doc (lines : list string) : string := join (String LF EmptyString) (map dq lines).

(** ** readExternalFile *)

(** What a fetch gives: the text, or a failure. *)
Inductive Fetch :=
| Fetched (content : string)
| FetchFailed.

(** Lines 311-317 and 327-333: a text that begins, once trimmed, with the
    playlist header is a playlist of its own and stands for its location;
    any other text is a list of locations, one per line that is not
    blank. *)
Definition url_list (location content : string) : list string :=
  if startsWith "#EXTM3U" (trim content) then [location]
  else List.filter (fun line => negb (bool_decide (trim line = EmptyString)))
                   (split LF content).

(** Lines 12-27.  [exec] is called but never imported (lines 1-4), so the
    executor of the promise throws and the promise is rejected: the download
    fails for every URL and path. *)
Definition downloadFileWithWgetOrCurl (url outputPath : string) : option unit := None.

(** [axios] is what [axios.get(url)] gives and [localFile] what reading
    [localFilePath] would give after a download.  A thrown error is
    [None]. *)
Definition readExternalFile (url localFilePath : string) (axios localFile : Fetch)
  : option (list string) :=
  match axios with
  | Fetched content => Some (url_list url content)
  | FetchFailed =>
      match downloadFileWithWgetOrCurl url localFilePath with
      | Some _ =>
          match localFile with
          | Fetched content => Some (url_list localFilePath content)
          | FetchFailed => None
          end
      | None => None
      end
  end.

(** ** The configuration module *)

Module Config.

(** The environment variables the module reads. *)
Record Env := {
  env_PORT : option string;
  env_EPG_URL : option string;
  env_PROXY_URL : option string;
  env_PROXY_PASSWORD : option string;
  env_FORCE_PROXY : option string
}.

Record CacheSettings := {
  cs_updateInterval : N;
  maxAge : N;
  retryAttempts : N;
  retryDelay : N
}.

Record EpgSettings := {
  maxProgramsPerChannel : N;
  es_updateInterval : N;
  cacheExpiry : N
}.

Record Extra := {
  ex_name : string;
  isRequired : bool;
  options : option (list string)
}.

Record Catalog := {
  cat_type : string;
  cat_id : string;
  cat_name : string;
  extra : list Extra
}.

Record Manifest := {
  m_id : string;
  version : string;
  m_name : string;
  m_description : string;
  m_logo : string;
  resources : list string;
  types : list string;
  idPrefixes : list string;
  catalogs : list Catalog
}.

Record Config := {
  port : string + N;
  M3U_URL : string;
  EPG_URL : option string;
  enableEPG : bool;
  PROXY_URL : option string;
  PROXY_PASSWORD : option string;
  FORCE_PROXY : bool;
  cacheSettings : CacheSettings;
  epgSettings : EpgSettings;
  manifest : Manifest
}.

(** [a || null] *)
Definition or_null (o : option string) : option string :=
  if truthy o then o else None.

Definition default_EPG_URL : string :=
  "https://raw.githubusercontent.com/mccoy88f/OMG-TV-Stremio-Addon/refs/heads/beta/link.epg".

(** The object literal of lines 1-65, for the environment [env]. *)
Definition config (env : Env) : Config :=
  {| port := if truthy (env_PORT env) then inl (or_else (env_PORT env) EmptyString)
             else inr 10000%N;
     M3U_URL :=
       "https://raw.githubusercontent.com/mccoy88f/OMG-TV-Stremio-Addon/refs/heads/beta/link.playlist";
     EPG_URL := Some (or_else (env_EPG_URL env) default_EPG_URL);
     enableEPG := true;
     PROXY_URL := or_null (env_PROXY_URL env);
     PROXY_PASSWORD := or_null (env_PROXY_PASSWORD env);
     FORCE_PROXY := bool_decide (env_FORCE_PROXY env = Some "yes");
     cacheSettings :=
       {| cs_updateInterval := (12 * 60 * 60 * 1000)%N;
          maxAge := (24 * 60 * 60 * 1000)%N;
          retryAttempts := 3%N;
          retryDelay := 5000%N |};
     epgSettings :=
       {| maxProgramsPerChannel := 50%N;
          es_updateInterval := (12 * 60 * 60 * 1000)%N;
          cacheExpiry := (24 * 60 * 60 * 1000)%N |};
     manifest :=
       {| m_id := "org.mccoy88f.omgtv";
          version := "1.6.0";
          m_name := "OMG TV";
          m_description :=
            "Un add-on per Stremio con playlist di canali M3U predefinita, senza personalizzazione.";
          m_logo := "https://github.com/mccoy88f/OMG-TV-Stremio-Addon/blob/main/tv.png?raw=true";
          resources := ["stream"; "catalog"; "meta"];
          types := ["tv"];
          idPrefixes := ["tv"];
          catalogs :=
            [{| cat_type := "tv"; cat_id := "omg_tv"; cat_name := "OMG TV";
                extra := [{| ex_name := "genre"; isRequired := false; options := Some [] |};
                          {| ex_name := "search"; isRequired := false; options := None |};
                          {| ex_name := "skip"; isRequired := false; options := None |}] |}] |} |}.

(** Lines 68-72. *)
Definition updateEPGUrl (url : option string) (c : Config) : Config :=
  if negb (truthy (EPG_URL c)) && truthy url then
    {| port := port c; M3U_URL := M3U_URL c; EPG_URL := url; enableEPG := enableEPG c;
       PROXY_URL := PROXY_URL c; PROXY_PASSWORD := PROXY_PASSWORD c;
       FORCE_PROXY := FORCE_PROXY c; cacheSettings := cacheSettings c;
       epgSettings := epgSettings c; manifest := manifest c |}
  else c.

End Config.

(** ** Notions the properties are stated with *)

(** Following the words of the specification for the guide URL: the URLs in
    order, each kept at its first occurrence only. *)
Fixpoint first_occurrences (l : list string) : list string :=
  match l with
  | [] => []
  | x :: l' => x :: filter (fun y => y ≠ x) (first_occurrences l')
  end.

(** Following the words of the specification: the comma-join of the guide
    URLs of the documents, duplicates skipped, absent when there is none. *)
Definition guide_union (found : list string) : option string :=
  match first_occurrences found with
  | [] => None
  | us => Some (join "," us)
  end.

(** The guide URL one document yields. *)
Definition guideUrl_of (content : string) : option string :=
  r_epgUrl (snd (parseM3U content constructor)).

(** Following the words of the specification for the rule file: a line is
    ignored (blank or a comment), malformed (no equals sign, or an empty key
    or value once split and trimmed), or a rule with both sides trimmed and
    lower-cased.  The key is the text before the first equals sign and the
    value the text between the first and the second. *)
Inductive LineKind :=
| Ignored
| Malformed
| Rule (key value : string).

Definition not_equals (c : ascii) : bool := negb (Ascii.eqb c "="%char).

Definition key_part (line : string) : string := fst (span not_equals line).

Definition value_part (line : string) : option string :=
  match snd (span not_equals line) with
  | EmptyString => None
  | String _ rest => Some (fst (span not_equals rest))
  end.

Definition classify (line : string) : LineKind :=
  let line := trim line in
  if bool_decide (line = EmptyString) then Ignored
  else if startsWith "#" line then Ignored
  else match value_part line with
       | None => Malformed
       | Some v =>
           let k := trim (key_part line) in
           let v := trim v in
           if bool_decide (k = EmptyString) then Malformed
           else if bool_decide (v = EmptyString) then Malformed
           else Rule (toLowerCase k) (toLowerCase v)
       end.

Definition add_rule (rules : gmap string string) (k : LineKind) : gmap string string :=
  match k with
  | Rule key value => <[key := value]> rules
  | _ => rules
  end.

Definition is_rule (k : LineKind) : bool :=
  match k with Rule _ _ => true | _ => false end.

Definition is_malformed (k : LineKind) : bool :=
  match k with Malformed => true | _ => false end.

Definition count_kind (p : LineKind -> bool) (ks : list LineKind) : nat :=
  length (List.filter p ks).

(** The counters after a line of the given kind. *)
Definition count_line (log : LoadLog) (k : LineKind) : LoadLog :=
  {| ruleCount := if is_rule k then S (ruleCount log) else ruleCount log;
     skippedCount := if is_malformed k then S (skippedCount log) else skippedCount log |}.

(** A line the loop of [parseM3U] passes over: once trimmed it is neither a
    metadata line nor a line beginning with http. *)
Definition passed_over (l : string) : Prop :=
  startsWith "#EXTINF:" (trim l) = false /\ startsWith "http" (trim l) = false.

(** The entries a document completes, in order: the loop of [parseM3U]
    collecting what it would hand to [transformChannelToStremio]. *)
Definition entries_of_lines (lines : list string) : list M3UChannel :=
  parse_lines (fun e acc => acc ++ [e]) 0 lines None [].

Definition entries_of (content : string) : list M3UChannel :=
  entries_of_lines (split LF content).

(** The channel objects of one document as values: what
    [transformChannelToStremio] does to the objects behind
    [stremioData.channels], without the references. *)
Definition merge_entry (rules : gmap string string) (objs : list StremioChannel)
    (e : M3UChannel) : list StremioChannel :=
  let channelId := channelId_of rules e in
  match list_find (fun o => has_key channelId o) objs with
  | Some (i, _) => alter (push_url (stream_of e)) i objs
  | None => objs ++ [new_channel channelId e]
  end.

Definition merged (rules : gmap string string) (es : list M3UChannel) : list StremioChannel :=
  fold_left (merge_entry rules) es [].

(** The array of references [parseM3U] builds for [m] objects allocated
    from address [n + k] on: every reference is pushed twice. *)
Definition dup_refs (n k m : nat) : list nat :=
  flat_map (fun i => [n + i; n + i]) (seq k m).

(** Lines 269-273 on channel values. *)
Definition add_value (all : list StremioChannel) (o : StremioChannel) : list StremioChannel :=
  if existsb (fun x => bool_decide (id x = id o)) all then all else all ++ [o].

(** The catalog as a function of the documents: the objects of each
    document folded in by [id], first come first kept. *)
Definition union_first (rules : gmap string string) (playlists : list string)
  : list StremioChannel :=
  fold_left (fun all content => fold_left add_value (merged rules (entries_of content)) all)
            playlists [].

(** [push_url] for several streams in turn. *)
Definition push_urls (ss : list StreamUrl) (ch : StremioChannel) : StremioChannel :=
  fold_left (fun c s => push_url s c) ss ch.

(** The object a document holds for the identity [X]: built from the first
    entry with that identity, with the streams of the later ones pushed. *)
Definition obj_for (rules : gmap string string) (es : list M3UChannel) (X : string)
  : option StremioChannel :=
  match List.filter (fun e => bool_decide (channelId_of rules e = X)) es with
  | [] => None
  | e :: rest => Some (push_urls (map stream_of rest) (new_channel X e))
  end.

(** The instance state [t] holds the objects [objs], allocated after the
    older heap [h0], behind an array that lists each of them twice. *)
Definition Rep (h0 : list StremioChannel) (rules : gmap string string)
    (objs : list StremioChannel) (t : PlaylistTransformer) : Prop :=
  heap t = h0 ++ objs
  /\ channels t = dup_refs (length h0) 0 (length objs)
  /\ remappingRules t = rules.

(** Every reference of the array points into the heap. *)
Definition valid (h : list StremioChannel) (refs : list nat) : Prop :=
  Forall (fun r => r < length h) refs.

(** What [transformChannelToStremio] establishes for every object it
    builds: the [tvg] id is lower-case and the [id] is its namespaced form. *)
Definition wf_obj (o : StremioChannel) : Prop :=
  exists k, si_tvg (streamInfo o) !! "id" = Some k
            /\ toLowerCase k = k
            /\ id o = "tv|" +:+ k.

(** The genre set [parseM3U] leaves for the channel objects of a document:
    the uncategorized genre, then the genre of each object in order. *)
Definition genres_of (objs : list StremioChannel) : list string :=
  fold_left (fun s g => set_add g s) (concat (genre <$> objs)) (set_add uncategorized []).

(** The genre set of a run as a function of the rules and the documents. *)
Definition all_genres (rules : gmap string string) (playlists : list string) : list string :=
  fold_left
    (fun all content =>
       fold_left (fun s g => set_add g s) (genres_of (merged rules (entries_of content))) all)
    playlists [].

(** What a run returns, read as values: genres, channels and guide URL. *)
Definition snapshot_values (out : PlaylistTransformer * Snapshot)
  : list string * list StremioChannel * option string :=
  (s_genres (snd out), catalog out, s_epgUrl (snd out)).

(** The value of the last rule line for the key [k], if there is one. *)
Fixpoint last_rule (k : string) (ks : list LineKind) : option string :=
  match ks with
  | [] => None
  | l :: ks' =>
      match last_rule k ks' with
      | Some v => Some v
      | None =>
          match l with
          | Rule key v => if bool_decide (key = k) then Some v else None
          | _ => None
          end
      end
  end.

(** A stored side of a rule: not empty, lower-case, no white space around. *)
Definition normalized (s : string) : Prop :=
  s ≠ EmptyString /\ toLowerCase s = s /\ trim s = s.

(** [all.includes(i) || all.push(i)] on a list of ids. *)
Definition add_id (all : list string) (i : string) : list string :=
  if bool_decide (i ∈ all) then all else all ++ [i].

(** The namespaced identity of an entry. *)
Definition tv_id (rules : gmap string string) (e : M3UChannel) : string :=
  "tv|" +:+ channelId_of rules e.

(** The namespaced identities of the entries of the documents, in order. *)
Definition identities (rules : gmap string string) (playlists : list string) : list string :=
  concat (map (fun content => tv_id rules <$> entries_of content) playlists).

(** What holds of every channel object the transformer builds. *)
Definition channel_ok (o : StremioChannel) : Prop :=
  wf_obj o
  /\ urls (streamInfo o) ≠ []
  /\ defaultVideoId (behaviorHints o) = id o
  /\ si_tvg (streamInfo o) !! "name" = Some (ch_name o)
  /\ (exists g, genre o = [g] /\ g ≠ EmptyString)
  /\ poster o = logo o /\ background o = logo o.

(** The character [c] occurs in [s]. *)
Fixpoint has_char (c : ascii) (s : string) : bool :=
  match s with
  | EmptyString => false
  | String d s' => Ascii.eqb d c || has_char c s'
  end.

(** An option line as [parseVLCOpts] tests it, and one that sets the user
    agent. *)
Definition is_option_line (l : string) : bool := startsWith "#EXTVLCOPT:" l.

Definition is_user_agent_line (l : string) : bool :=
  is_option_line l
  && startsWith "http-user-agent=" (trim (substring_from (String.length "#EXTVLCOPT:") l)).

Definition user_agent_of (l : string) : string :=
  substring_from (String.length "http-user-agent=")
                 (trim (substring_from (String.length "#EXTVLCOPT:") l)).

(** Only white space. *)
Fixpoint blank (s : string) : bool :=
  match s with
  | EmptyString => true
  | String c s' => is_ws c && blank s'
  end.

Definition CR : ascii := ascii_of_nat 13.

(** The line with a carriage return after it. *)
Definition with_cr (l : string) : string := l +:+ String CR EmptyString.

(** A stream as the loop completes it: a URL that begins with http and has
    no white space around. *)
Definition http_stream (s : StreamUrl) : Prop :=
  exists u, su_url s = Some u /\ startsWith "http" u = true /\ trim u = u.

(** ** Sample playlists *)

Module Samples.

(** One entry with identity [a]. *)
Definition docA : string :=
  doc ["#EXTM3U url-tvg='http://x/epg1'";
       "#EXTINF:-1 tvg-id='a' tvg-name='A One' group-title='News',A one";
       "http://a/1"].

(** Another document with an entry of the same identity [a]. *)
Definition docB : string :=
  doc ["#EXTM3U url-tvg='http://x/epg1'";
       "#EXTINF:-1 tvg-id='a' tvg-name='A Two' group-title='Sport',A two";
       "http://b/1"].

Definition docC : string :=
  doc ["#EXTM3U url-tvg='http://x/epg2'";
       "#EXTINF:-1 tvg-id='c' group-title='Sport',C";
       "http://c/1"].

(** Two entries resolving to [chbar], one by its own id and one through
    the rule [chfoo=chbar], with another channel in between. *)
Definition docMerge : string :=
  doc ["#EXTM3U";
       "#EXTINF:-1 tvg-id='chbar' tvg-name='Bar' tvg-logo='http://l/bar.png' group-title='News',Bar HD";
       "#EXTVLCOPT:http-user-agent=UA1";
       "http://s/bar1";
       "#EXTINF:-1 tvg-id='other',Other";
       "http://s/other";
       "#EXTINF:-1 tvg-id='chfoo' tvg-name='Foo' tvg-logo='http://l/foo.png' group-title='Sport',Foo SD";
       "http://s/foo1"].

Definition remapFoo : ReadResult := FileContent "chfoo=chbar".

(** One entry with identity [chfoo]. *)
Definition docFoo : string :=
  doc ["#EXTM3U";
       "#EXTINF:-1 tvg-id='chfoo' group-title='News',Foo";
       "http://s/foo"].

(** An entry whose logo URL carries a query string. *)
Definition docLogo : string :=
  doc ["#EXTM3U";
       "#EXTINF:-1 tvg-id='a' tvg-logo='http://l/a.png?s=1' group-title='News',A";
       "http://a/1"].

(** An entry whose stream line has another scheme than http. *)
Definition docRtmp : string :=
  doc ["#EXTM3U";
       "#EXTINF:-1 tvg-id='r' group-title='News',R";
       "rtmp://s/r"].

(** The first and the third entry of [docMerge]. *)
Definition barEntry : M3UChannel :=
  set_url "http://s/bar1"
    (parse_extinf
       (dq "#EXTINF:-1 tvg-id='chbar' tvg-name='Bar' tvg-logo='http://l/bar.png' group-title='News',Bar HD")
       (<["User-Agent" := "UA1"]> ∅)).

Definition fooEntry : M3UChannel :=
  set_url "http://s/foo1"
    (parse_extinf
       (dq "#EXTINF:-1 tvg-id='chfoo' tvg-name='Foo' tvg-logo='http://l/foo.png' group-title='Sport',Foo SD")
       ∅).

End Samples.

(** * Properties *)

(** ** Guide URLs *)

Section GuideUrl.

Lemma quoted_nonempty s v rest : quoted s = Some (v, rest) -> v ≠ EmptyString.
Proof.
  unfold quoted. destruct s as [|c s']; [done|].
  destruct (Ascii.eqb c quote); [|done].
  destruct (span _ s') as [[|v0 v'] [|q r]]; try done.
  intros [= <- _]. done.
Qed.

Lemma match_attr_nonempty lit s v : match_attr lit s = Some v -> v ≠ EmptyString.
Proof.
  induction s as [|c s IH]; simpl.
  - destruct (startsWith lit EmptyString); simpl; [|done].
    destruct (quoted _) as [[v' r]|] eqn:E; simpl; [|done].
    intros [= <-]; eauto using quoted_nonempty.
  - destruct (startsWith lit (String c s)); simpl; [|done].
    destruct (quoted _) as [[v' r]|] eqn:E; simpl; [|done].
    intros [= <-]; eauto using quoted_nonempty.
Qed.

Lemma parse_epgUrl_nonempty lines u : parse_epgUrl lines = Some u -> truthy (Some u) = true.
Proof.
  destruct lines as [|l0 ?]; [done|]. simpl.
  destruct (includes _ l0); [|done].
  intros H%match_attr_nonempty. by destruct u.
Qed.

(** The guide URL of a document does not depend on the instance state. *)
Lemma parseM3U_epgUrl content t :
  r_epgUrl (snd (parseM3U content t)) = guideUrl_of content.
Proof. reflexivity. Qed.

Lemma add_epgUrl_found all content :
  add_epgUrl all (guideUrl_of content) =
  match guideUrl_of content with
  | Some u => if bool_decide (u ∈ all) then all else all ++ [u]
  | None => all
  end.
Proof.
  unfold guideUrl_of, parseM3U; simpl.
  destruct (parse_epgUrl _) as [u|] eqn:E; [|done].
  unfold add_epgUrl. rewrite (parse_epgUrl_nonempty _ _ E). simpl.
  by destruct (bool_decide (u ∈ all)).
Qed.

Lemma filter_not_in_nil (l : list string) :
  filter (fun u : string => u ∉ @nil string) l = l.
Proof.
  induction l as [|x l IH]; [done|].
  rewrite filter_cons_True by apply not_elem_of_nil. by rewrite IH.
Qed.

Lemma first_occurrences_fold (found : list string) (all : list string) :
  fold_left (fun all u => if bool_decide (u ∈ all) then all else all ++ [u]) found all
  = all ++ filter (fun u => u ∉ all) (first_occurrences found).
Proof.
  revert all. induction found as [|x found IH]; intros all; simpl.
  - by rewrite app_nil_r.
  - rewrite IH. case_bool_decide as Hx.
    + f_equal. rewrite filter_cons_False by (intros ?; done).
      rewrite list_filter_filter. apply list_filter_iff.
      intros y; split; [intros ?; split; [done | by intros ->] | by intros [? _]].
    + rewrite filter_cons_True by done.
      rewrite <- app_assoc. simpl. do 2 f_equal.
      rewrite list_filter_filter. apply list_filter_iff.
      intros y. rewrite elem_of_app, list_elem_of_singleton. intuition.
Qed.

Lemma load_playlist_eq t agg content :
  load_playlist (t, agg) content =
  let out := parseM3U content t in
  (fst out,
   {| allChannels :=
        fold_left (add_channel (heap (fst out))) (r_channels (snd out)) (allChannels agg);
      allGenres := fold_left (fun s g => set_add g s) (r_genres (snd out)) (allGenres agg);
      allEpgUrls := add_epgUrl (allEpgUrls agg) (r_epgUrl (snd out)) |}).
Proof. reflexivity. Qed.

Lemma load_playlist_fold playlists t agg :
  allEpgUrls (snd (fold_left load_playlist playlists (t, agg)))
  = fold_left (fun all u => if bool_decide (u ∈ all) then all else all ++ [u])
              (omap guideUrl_of playlists) (allEpgUrls agg).
Proof.
  revert t agg. induction playlists as [|d ds IH]; intros t agg; [done|].
  cbn [fold_left]. rewrite load_playlist_eq. cbv zeta. rewrite IH.
  cbn [allEpgUrls omap list_omap]. rewrite parseM3U_epgUrl, add_epgUrl_found.
  by destruct (guideUrl_of d).
Qed.

End GuideUrl.

(** C8. For every sequence of source documents, the guide URL of the
    snapshot is the comma-join, in document order, of the guide URLs the
    documents yield, exact duplicates skipped, and it is absent when no
    document yields one. *)
Theorem guideUrl_is_union remapFile (playlists : list string) t :
  s_epgUrl (snd (loadAndTransform remapFile playlists t))
  = guide_union (omap guideUrl_of playlists).
Proof.
  unfold loadAndTransform.
  destruct (loadRemappingRules remapFile t) as [t1 log].
  destruct (fold_left load_playlist playlists _) as [t2 agg] eqn:E.
  simpl.
  assert (allEpgUrls agg = first_occurrences (omap guideUrl_of playlists)) as ->.
  { change agg with (snd (t2, agg)). rewrite <- E, load_playlist_fold.
    rewrite first_occurrences_fold. simpl.
    apply filter_not_in_nil. }
  unfold guide_union. by destruct (first_occurrences _).
Qed.

(** ** The rule file *)

Section RuleFile.

Lemma split_span sep s :
  split sep s =
  match span (fun c => negb (Ascii.eqb c sep)) s with
  | (a, EmptyString) => [a]
  | (a, String _ r) => a :: split sep r
  end.
Proof.
  induction s as [|c s IH]; [done|]. simpl.
  destruct (Ascii.eqb c sep); simpl; [done|].
  rewrite IH. destruct (span _ s) as [a [|e r]]; done.
Qed.

Lemma split_head_two line :
  match split "="%char line with
  | k :: v :: _ => Some (k, v)
  | _ => None
  end = (fun v => (key_part line, v)) <$> value_part line.
Proof.
  unfold key_part, value_part, not_equals. rewrite split_span.
  destruct (span _ line) as [a [|e r]]; simpl; [done|].
  rewrite split_span. by destruct (span _ r) as [b [|e' r']].
Qed.

Lemma toLowerCase_empty s : toLowerCase s = EmptyString <-> s = EmptyString.
Proof. by destruct s. Qed.

(** What the callback does with one line, by the kind of the line. *)
Lemma rule_line_classify rules log line :
  rule_line (rules, log) line
  = (add_rule rules (classify line), count_line log (classify line)).
Proof.
  unfold rule_line, classify. cbv zeta.
  set (l := trim line).
  case_bool_decide as Hl; simpl; [by destruct log|].
  destruct (startsWith "#" l); simpl; [by destruct log|].
  pose proof (split_head_two l) as Hs.
  destruct (value_part l) as [v|]; simpl in Hs.
  - destruct (split "="%char l) as [|k' [|v' rest]]; try done.
    injection Hs as -> ->. cbn [map].
    repeat case_bool_decide; simpl;
      rewrite ?toLowerCase_empty in *; try done; try tauto.
  - destruct (split "="%char l) as [|k' [|v' rest]]; try done.
Qed.

Lemma rule_lines_classify lines rules log :
  fold_left rule_line lines (rules, log)
  = (fold_left add_rule (map classify lines) rules,
     fold_left count_line (map classify lines) log).
Proof.
  revert rules log. induction lines as [|l lines IH]; intros; [done|].
  cbn [fold_left map]. by rewrite rule_line_classify, IH.
Qed.

Lemma count_lines ks log :
  fold_left count_line ks log
  = {| ruleCount := ruleCount log + count_kind is_rule ks;
       skippedCount := skippedCount log + count_kind is_malformed ks |}.
Proof.
  revert log. induction ks as [|k ks IH]; intros log.
  - destruct log; unfold count_kind; simpl. f_equal; lia.
  - cbn [fold_left]. rewrite IH. unfold count_kind, count_line.
    destruct k; simpl; f_equal; lia.
Qed.

Lemma loadRemappingRules_content content t :
  loadRemappingRules (FileContent content) t
  = ({| genres := genres t; channels := channels t;
        remappingRules :=
          fold_left add_rule (map classify (split LF content)) (remappingRules t);
        heap := heap t |},
     Some {| ruleCount := count_kind is_rule (map classify (split LF content));
             skippedCount := count_kind is_malformed (map classify (split LF content)) |}).
Proof.
  unfold loadRemappingRules. by rewrite rule_lines_classify, count_lines.
Qed.

End RuleFile.

(** C7. Loading the rule file always returns.  For every file content the
    ignored lines (blank or starting with a hash) change nothing, every
    malformed line is skipped and counted, every well-formed line stores one
    rule with both sides trimmed and lower-cased and is counted, and the rest
    of the instance is untouched.  When the file is absent, or cannot be
    read, the rules are left as they were: a new instance has none, but an
    instance that has loaded the rule [chfoo=chbar] before still has it, so
    the rule set is not empty then. *)
Theorem absent_rule_file_keeps_earlier_rules :
  (forall content t,
      let kinds := map classify (split LF content) in
      let out := loadRemappingRules (FileContent content) t in
      remappingRules (fst out) = fold_left add_rule kinds (remappingRules t)
      /\ snd out = Some {| ruleCount := count_kind is_rule kinds;
                           skippedCount := count_kind is_malformed kinds |}
      /\ genres (fst out) = genres t
      /\ channels (fst out) = channels t
      /\ heap (fst out) = heap t)
  /\ (forall t, loadRemappingRules ENOENT t = (t, None))
  /\ (forall t, loadRemappingRules ReadError t = (t, None))
  /\ remappingRules (fst (loadRemappingRules ENOENT constructor)) = ∅
  /\ let used := fst (loadAndTransform Samples.remapFoo [] constructor) in
     remappingRules (fst (loadRemappingRules ENOENT used)) !! "chfoo" = Some "chbar"
     /\ remappingRules (fst (loadRemappingRules ENOENT used)) ≠ ∅.
Proof.
  split; [|split; [done|split; [done|split; [done|]]]].
  - intros content t. cbv zeta. by rewrite loadRemappingRules_content.
  - cbv zeta.
    assert (remappingRules
              (fst (loadRemappingRules ENOENT
                      (fst (loadAndTransform Samples.remapFoo [] constructor))))
              !! "chfoo" = Some "chbar") as H by (vm_compute; reflexivity).
    split; [exact H|]. intros E. rewrite E, lookup_empty in H. discriminate.
Qed.

Example classify_examples :
  classify "# chfoo=chbar" = Ignored
  /\ classify "   " = Ignored
  /\ classify "chfoo" = Malformed
  /\ classify "=chbar" = Malformed
  /\ classify "chfoo=  " = Malformed
  /\ classify "  ChFoo = CHBAR " = Rule "chfoo" "chbar".
Proof. by vm_compute. Qed.

Example loadRemappingRules_example :
  let out := loadRemappingRules
               (FileContent (doc ["# rules"; EmptyString; " ChFoo = CHBAR "; "broken"; "=x"; "a=b"]))
               constructor in
  snd out = Some {| ruleCount := 2; skippedCount := 2 |}
  /\ remappingRules (fst out) !! "chfoo" = Some "chbar"
  /\ remappingRules (fst out) !! "a" = Some "b"
  /\ remappingRules (fst out) !! "broken" = None.
Proof. by vm_compute. Qed.

(** ** The line loop and the entries of a document *)

Section Lines.

Context {A : Type} (emit : M3UChannel -> A -> A).

Lemma parse_lines_collect lines : forall skip cur (es : list M3UChannel),
  parse_lines (fun e acc => acc ++ [e]) skip lines cur es
  = es ++ parse_lines (fun e acc => acc ++ [e]) skip lines cur [].
Proof.
  induction lines as [|raw rest IH]; intros skip cur es; simpl.
  - by rewrite app_nil_r.
  - destruct skip as [|k]; [|apply IH].
    destruct (startsWith "#EXTINF:" (trim raw)).
    { destruct (parseVLCOpts rest). apply IH. }
    destruct (startsWith "http" (trim raw)); [|apply IH].
    destruct cur as [c|]; [|apply IH].
    set (c' := set_url (trim raw) c).
    rewrite IH, (IH _ _ [c']). by rewrite app_assoc.
Qed.

(** The loop hands the entries of the document to [emit], in order. *)
Lemma parse_lines_entries lines : forall skip cur acc,
  parse_lines emit skip lines cur acc
  = fold_left (fun a e => emit e a)
              (parse_lines (fun e acc => acc ++ [e]) skip lines cur []) acc.
Proof.
  induction lines as [|raw rest IH]; intros skip cur acc; simpl; [done|].
  destruct skip as [|k]; [|apply IH].
  destruct (startsWith "#EXTINF:" (trim raw)).
  { destruct (parseVLCOpts rest). apply IH. }
  destruct (startsWith "http" (trim raw)); [|apply IH].
  destruct cur as [c|]; [|apply IH].
  rewrite parse_lines_collect, fold_left_app. simpl. apply IH.
Qed.

End Lines.

(** ** The two outcomes of transformChannelToStremio *)

Section Outcomes.

Variables (channel : M3UChannel) (t : PlaylistTransformer).

Let channelId := channelId_of (remappingRules t) channel.

(** Merged: the stream is pushed onto the channel found, nothing is
    returned and no object is allocated. *)
Lemma transformChannelToStremio_merged r :
  List.find (has_tvg_id (heap t) channelId) (channels t) = Some r ->
  let out := transformChannelToStremio channel t in
  snd out = None
  /\ channels (fst out) = channels t
  /\ genres (fst out) = genres t
  /\ length (heap (fst out)) = length (heap t)
  /\ heap (fst out) !! r = push_url (stream_of channel) <$> heap t !! r.
Proof.
  intros H. unfold transformChannelToStremio. cbv zeta. fold channelId. rewrite H.
  cbn [fst snd channels genres heap]. repeat split.
  - apply length_alter.
  - apply list_lookup_alter_eq.
Qed.

(** Created: a new object is allocated, referenced once and returned. *)
Lemma transformChannelToStremio_created :
  List.find (has_tvg_id (heap t) channelId) (channels t) = None ->
  let out := transformChannelToStremio channel t in
  snd out = Some (length (heap t))
  /\ channels (fst out) = channels t ++ [length (heap t)]
  /\ heap (fst out) = heap t ++ [new_channel channelId channel].
Proof.
  intros H. unfold transformChannelToStremio. cbv zeta. fold channelId. by rewrite H.
Qed.

(** The conflict warning of a remapped entry is raised exactly when the
    entry is merged into a channel already there. *)
Lemma isConflict_iff_merged :
  isConflict t channelId = true
  <-> is_Some (List.find (has_tvg_id (heap t) channelId) (channels t)).
Proof.
  unfold isConflict. generalize (channels t). intros l.
  induction l as [|r l IH]; simpl.
  - split; [done|by intros [? ?]].
  - destruct (has_tvg_id (heap t) channelId r); simpl; [|exact IH].
    split; eauto.
Qed.

End Outcomes.

(** ** From references to values: one document *)

Section OneDocument.

Lemma dup_refs_S n k m : dup_refs n k (S m) = n + k :: n + k :: dup_refs n (S k) m.
Proof. reflexivity. Qed.

Lemma dup_refs_snoc n m : dup_refs n 0 (S m) = (dup_refs n 0 m ++ [n + m]) ++ [n + m].
Proof.
  unfold dup_refs. rewrite seq_S, flat_map_app. simpl.
  by rewrite <- app_assoc.
Qed.

Lemma has_tvg_id_app_r h0 objs X i :
  has_tvg_id (h0 ++ objs) X (length h0 + i)
  = match objs !! i with Some o => has_key X o | None => false end.
Proof.
  unfold has_tvg_id. rewrite lookup_app_r by lia.
  by replace (length h0 + i - length h0) with i by lia.
Qed.

(** [find] over the doubled references meets the first object with the
    key, as [list_find] does over the objects. *)
Lemma find_dup_refs h0 objs X m : forall k,
  k + m <= length objs ->
  List.find (has_tvg_id (h0 ++ objs) X) (dup_refs (length h0) k m)
  = (fun p => length h0 + (k + fst p))
      <$> list_find (fun o => has_key X o) (take m (drop k objs)).
Proof.
  induction m as [|m IH]; intros k Hk; [done|].
  destruct (lookup_lt_is_Some_2 objs k ltac:(lia)) as [x Hx].
  rewrite dup_refs_S, (drop_S _ _ _ Hx). cbn [List.find take list_find].
  rewrite has_tvg_id_app_r, Hx.
  destruct (has_key X x) eqn:E.
  - rewrite decide_True by done. simpl. do 2 f_equal. lia.
  - rewrite decide_False by (by intros []).
    rewrite IH by lia. destruct (list_find _ _) as [[i o]|]; simpl; [|done].
    f_equal. lia.
Qed.

Lemma find_channels h0 objs X :
  List.find (has_tvg_id (h0 ++ objs) X) (dup_refs (length h0) 0 (length objs))
  = (fun p => length h0 + fst p) <$> list_find (fun o => has_key X o) objs.
Proof.
  rewrite find_dup_refs by (simpl; lia).
  rewrite drop_0, take_ge by done. by destruct (list_find _ objs).
Qed.

(** One completed entry: the instance follows [merge_entry]. *)
Lemma emit_channel_rep h0 rules objs t e :
  Rep h0 rules objs t -> Rep h0 rules (merge_entry rules objs e) (emit_channel e t).
Proof.
  intros (Hh & Hc & Hr).
  unfold emit_channel, transformChannelToStremio, merge_entry. cbv zeta.
  rewrite Hh, Hc, Hr, find_channels.
  destruct (list_find _ objs) as [[i o]|]; simpl.
  - repeat split; simpl.
    + apply alter_app_r.
    + by rewrite length_alter.
  - repeat split; simpl.
    + by rewrite <- app_assoc.
    + rewrite !length_app. simpl.
      replace (length objs + 1) with (S (length objs)) by lia.
      by rewrite dup_refs_snoc.
Qed.

Lemma emit_channels_rep h0 rules es : forall objs t,
  Rep h0 rules objs t ->
  Rep h0 rules (fold_left (merge_entry rules) es objs)
      (fold_left (fun a e => emit_channel e a) es t).
Proof.
  induction es as [|e es IH]; intros objs t H; [done|].
  simpl. apply IH. by apply emit_channel_rep.
Qed.

(** A parsed document leaves the older heap alone, allocates the merged
    objects of its entries after it, and lists each of them twice. *)
Lemma parseM3U_rep content t :
  Rep (heap t) (remappingRules t)
      (merged (remappingRules t) (entries_of content))
      (fst (parseM3U content t))
  /\ r_channels (snd (parseM3U content t)) = channels (fst (parseM3U content t)).
Proof.
  split; [|done].
  unfold parseM3U. cbv zeta. cbn [fst].
  rewrite parse_lines_entries.
  apply emit_channels_rep. repeat split; simpl. by rewrite app_nil_r.
Qed.

End OneDocument.

(** ** From references to values: the aggregation over the documents *)

Section Aggregation.

Lemma valid_app_l h h' refs : valid h refs -> valid (h ++ h') refs.
Proof.
  unfold valid. intros H. eapply Forall_impl; [exact H|].
  intros r Hr. simpl in Hr. rewrite length_app. lia.
Qed.

Lemma deref_app_l h h' refs : valid h refs -> deref (h ++ h') refs = deref h refs.
Proof.
  unfold deref. induction 1 as [|r refs Hr _ IH]; [done|].
  cbn [omap list_omap]. by rewrite lookup_app_l, IH.
Qed.

Lemma deref_snoc h refs r o :
  h !! r = Some o -> deref h (refs ++ [r]) = deref h refs ++ [o].
Proof.
  intros Hr. unfold deref. rewrite omap_app. simpl. by rewrite Hr.
Qed.

Lemma existsb_deref h all r o :
  valid h all -> h !! r = Some o ->
  existsb (fun x => bool_decide (id_of h x = id_of h r)) all
  = existsb (fun x => bool_decide (id x = id o)) (deref h all).
Proof.
  intros Hv Hr. unfold deref, id_of. rewrite Hr.
  cbn [fmap option_fmap option_map].
  induction Hv as [|x all Hx _ IH]; [done|].
  destruct (lookup_lt_is_Some_2 h x Hx) as [ox Hox].
  cbn [existsb omap list_omap]. rewrite Hox. cbn [existsb fmap option_fmap option_map].
  rewrite IH. f_equal. apply bool_decide_ext. split; [by intros [= ->]|by intros ->].
Qed.

Lemma add_channel_value h all r o :
  valid h all -> h !! r = Some o ->
  valid h (add_channel h all r)
  /\ deref h (add_channel h all r) = add_value (deref h all) o.
Proof.
  intros Hv Hr. unfold add_channel, add_value.
  rewrite (existsb_deref h all r o) by done.
  destruct (existsb _ (deref h all)); [done|]. split.
  - apply Forall_app. split; [done|]. apply Forall_singleton.
    by eapply lookup_lt_Some.
  - by apply deref_snoc.
Qed.

Lemma add_value_twice all o : add_value (add_value all o) o = add_value all o.
Proof.
  unfold add_value at 2 3.
  destruct (existsb _ all) eqn:E.
  - unfold add_value. by rewrite E.
  - unfold add_value. rewrite existsb_app. simpl.
    rewrite bool_decide_true by done. by rewrite orb_true_r.
Qed.

(** Folding the doubled references of a document into the aggregate
    array is folding its objects in once. *)
Lemma add_channels_dup h0 objs m : forall k all,
  k + m <= length objs ->
  valid (h0 ++ objs) all ->
  valid (h0 ++ objs) (fold_left (add_channel (h0 ++ objs)) (dup_refs (length h0) k m) all)
  /\ deref (h0 ++ objs) (fold_left (add_channel (h0 ++ objs)) (dup_refs (length h0) k m) all)
     = fold_left add_value (take m (drop k objs)) (deref (h0 ++ objs) all).
Proof.
  induction m as [|m IH]; intros k all Hk Hv; [done|].
  destruct (lookup_lt_is_Some_2 objs k ltac:(lia)) as [o Ho].
  assert ((h0 ++ objs) !! (length h0 + k) = Some o) as Hr.
  { rewrite lookup_app_r by lia. by replace (length h0 + k - length h0) with k by lia. }
  rewrite dup_refs_S, (drop_S _ _ _ Ho). cbn [fold_left take].
  destruct (add_channel_value _ all _ _ Hv Hr) as [Hv1 E1].
  destruct (add_channel_value _ _ _ _ Hv1 Hr) as [Hv2 E2].
  destruct (IH (S k) _ ltac:(lia) Hv2) as [Hv3 E3].
  split; [done|]. by rewrite E3, E2, E1, add_value_twice.
Qed.

Lemma load_playlists_values rules playlists : forall t agg,
  remappingRules t = rules ->
  valid (heap t) (allChannels agg) ->
  let out := fold_left load_playlist playlists (t, agg) in
  deref (heap (fst out)) (allChannels (snd out))
  = fold_left (fun all content =>
                 fold_left add_value (merged rules (entries_of content)) all)
              playlists (deref (heap t) (allChannels agg)).
Proof.
  induction playlists as [|d ds IH]; intros t agg Hr Hv; [done|].
  cbn [fold_left]. rewrite load_playlist_eq. cbv zeta.
  destruct (parseM3U_rep d t) as [(Hh & Hc & Hr') Hres].
  rewrite Hres, Hc, Hh, Hr in *.
  set (objs := merged rules (entries_of d)) in *.
  destruct (add_channels_dup (heap t) objs (length objs) 0 (allChannels agg)
              ltac:(simpl; lia) (valid_app_l _ _ _ Hv)) as [Hv' E].
  rewrite drop_0, take_ge in E by lia. rewrite (deref_app_l _ _ (allChannels agg)) in E by done.
  rewrite IH; cbn [allChannels]; rewrite ?Hh; [by rewrite E|done|done].
Qed.

End Aggregation.

(** The catalog a run returns holds, for each [id], the channel object of
    the first document that produced it, as that document left it. *)
Theorem catalog_union_first remapFile playlists t :
  catalog (loadAndTransform remapFile playlists t)
  = union_first (remappingRules (fst (loadRemappingRules remapFile t))) playlists.
Proof.
  unfold catalog, loadAndTransform, union_first.
  destruct (loadRemappingRules remapFile t) as [t1 log]. cbn [fst].
  pose proof (load_playlists_values (remappingRules t1) playlists t1
                {| allChannels := []; allGenres := []; allEpgUrls := [] |}
                eq_refl (Forall_nil_2 _)) as H.
  cbv zeta in H.
  destruct (fold_left load_playlist playlists _) as [t2 agg]. exact H.
Qed.

(** ** The aggregate as a list of values *)

Section Values.

Lemma existsb_id_elem (all : list StremioChannel) i :
  existsb (fun x => bool_decide (id x = i)) all = true <-> i ∈ id <$> all.
Proof.
  rewrite existsb_exists, list_elem_of_fmap. split.
  - intros (x & Hx%list_elem_of_In & E%bool_decide_eq_true). eauto.
  - intros (x & -> & Hx%list_elem_of_In). exists x. split; [done|].
    by apply bool_decide_eq_true.
Qed.

Lemma add_value_NoDup all o :
  NoDup (id <$> all) -> NoDup (id <$> add_value all o).
Proof.
  intros H. unfold add_value.
  destruct (existsb _ all) eqn:E; [done|].
  rewrite fmap_app. apply NoDup_app. repeat split; [done| |].
  - intros i Hi [->|[]%elem_of_nil]%elem_of_cons.
    apply existsb_id_elem in Hi. congruence.
  - apply NoDup_singleton.
Qed.

Lemma add_values_NoDup objs : forall all,
  NoDup (id <$> all) -> NoDup (id <$> fold_left add_value objs all).
Proof.
  induction objs as [|o objs IH]; intros all H; [done|].
  simpl. by apply IH, add_value_NoDup.
Qed.

Lemma union_first_NoDup rules playlists : NoDup (id <$> union_first rules playlists).
Proof.
  unfold union_first. generalize (NoDup_nil_2 (A := string)).
  change (@nil string) with (id <$> @nil StremioChannel).
  generalize (@nil StremioChannel).
  induction playlists as [|d ds IH]; intros all H; [done|].
  simpl. by apply IH, add_values_NoDup.
Qed.

(** Folding more objects in keeps the channels already there, in place
    and unchanged. *)
Lemma add_values_prefix objs : forall all,
  exists extra, fold_left add_value objs all = all ++ extra.
Proof.
  induction objs as [|o objs IH]; intros all; simpl.
  - exists []. by rewrite app_nil_r.
  - destruct (IH (add_value all o)) as [extra ->]. unfold add_value.
    destruct (existsb _ all); [by eexists|].
    exists ([o] ++ extra). by rewrite app_assoc.
Qed.

(** Objects with distinct ids, none of them met before, all go in. *)
Lemma add_values_fresh objs : forall all,
  NoDup (id <$> (all ++ objs)) -> fold_left add_value objs all = all ++ objs.
Proof.
  induction objs as [|o objs IH]; intros all H; simpl.
  - by rewrite app_nil_r.
  - assert (add_value all o = all ++ [o]) as ->.
    { unfold add_value. destruct (existsb _ all) eqn:E; [|done].
      apply existsb_id_elem in E.
      rewrite fmap_app in H. apply NoDup_app in H as (_ & H & _).
      destruct (H _ E). rewrite fmap_cons. apply elem_of_cons. by left. }
    rewrite IH; rewrite <- app_assoc; done.
Qed.

Lemma filter_id_unique (l : list StremioChannel) ch :
  NoDup (id <$> l) -> ch ∈ l ->
  List.filter (fun c => bool_decide (id c = id ch)) l = [ch].
Proof.
  induction l as [|x l IH]; intros Hnd Hin; [by apply elem_of_nil in Hin|].
  rewrite fmap_cons in Hnd. apply NoDup_cons in Hnd as [Hx Hnd].
  simpl. apply elem_of_cons in Hin as [->|Hin].
  - rewrite bool_decide_true by done. f_equal.
    clear IH Hnd. induction l as [|y l IH]; [done|]. simpl.
    rewrite fmap_cons in Hx. apply not_elem_of_cons in Hx as [Hy Hx].
    rewrite bool_decide_false by done. by apply IH.
  - rewrite bool_decide_false; [by apply IH|].
    intros E. apply Hx. rewrite E. apply list_elem_of_fmap. eauto.
Qed.

End Values.

(** ** The objects of one document *)

Section Merged.

Variable rules : gmap string string.

Lemma lower_char_idem c : lower_char (lower_char c) = lower_char c.
Proof. destruct c as [[] [] [] [] [] [] [] []]; reflexivity. Qed.

Lemma toLowerCase_idem s : toLowerCase (toLowerCase s) = toLowerCase s.
Proof. induction s as [|c s IH]; [done|]. simpl. by rewrite lower_char_idem, IH. Qed.

Lemma channelId_of_lower e :
  toLowerCase (channelId_of rules e) = channelId_of rules e.
Proof.
  unfold channelId_of. cbv zeta.
  destruct (rules !! _); apply toLowerCase_idem.
Qed.

Lemma has_key_push_url X s o : has_key X (push_url s o) = has_key X o.
Proof. reflexivity. Qed.

Lemma has_key_inj X Y o : has_key X o -> has_key Y o -> X = Y.
Proof.
  unfold has_key. destruct (_ !! "id"); [|done].
  intros <-%bool_decide_unpack <-%bool_decide_unpack. done.
Qed.

Lemma has_key_new X e : toLowerCase X = X -> has_key X (new_channel X e) = true.
Proof.
  intros H. unfold has_key, new_channel. cbn [streamInfo si_tvg].
  rewrite lookup_insert_ne by done. rewrite lookup_insert_eq.
  by apply bool_decide_eq_true.
Qed.

Lemma has_key_new_ne X Y e : toLowerCase Y = Y -> X ≠ Y -> has_key X (new_channel Y e) = false.
Proof.
  intros H Hne. unfold has_key, new_channel. cbn [streamInfo si_tvg].
  rewrite lookup_insert_ne by done. rewrite lookup_insert_eq.
  apply bool_decide_eq_false. congruence.
Qed.

Lemma wf_obj_new X e : toLowerCase X = X -> wf_obj (new_channel X e).
Proof.
  intros H. exists X. unfold new_channel. cbn [streamInfo si_tvg id].
  rewrite lookup_insert_ne by done. by rewrite lookup_insert_eq.
Qed.

Lemma wf_obj_push_url s o : wf_obj o -> wf_obj (push_url s o).
Proof. intros (k & ? & ? & ?). by exists k. Qed.

Lemma wf_obj_has_key X o : wf_obj o -> id o = "tv|" +:+ X -> has_key X o = true.
Proof.
  intros (k & Hk & Hl & Hi) E. unfold has_key. rewrite Hk.
  apply bool_decide_eq_true. rewrite Hi in E.
  cbv [String.append] in E. congruence.
Qed.

Lemma merge_entry_wf objs e :
  Forall wf_obj objs -> Forall wf_obj (merge_entry rules objs e).
Proof.
  intros H. unfold merge_entry. cbv zeta.
  destruct (list_find _ objs) as [[i o]|].
  - apply Forall_alter; [done|]. intros. by apply wf_obj_push_url.
  - apply Forall_app. split; [done|]. apply Forall_singleton.
    apply wf_obj_new, channelId_of_lower.
Qed.

Lemma merge_entry_NoDup objs e :
  Forall wf_obj objs -> NoDup (id <$> objs) ->
  NoDup (id <$> merge_entry rules objs e).
Proof.
  intros Hwf Hnd. unfold merge_entry. cbv zeta.
  destruct (list_find _ objs) as [[i o]|] eqn:E.
  - rewrite (list_fmap_alter id _ (fun x => x)); [|by apply Forall_true].
    clear E. revert i. induction objs as [|x objs IH]; intros [|i]; try done.
    simpl. apply NoDup_cons in Hnd as [Hx Hnd]. apply Forall_cons in Hwf as [_ Hwf].
    apply NoDup_cons. split.
    + clear IH Hnd Hwf. revert i. induction objs as [|y objs IH]; intros [|i]; try done.
      simpl in *. apply not_elem_of_cons in Hx as [? ?].
      apply not_elem_of_cons. split; [done|]. by apply IH.
    + by apply IH.
  - rewrite fmap_app. apply NoDup_app. repeat split; [done| |apply NoDup_singleton].
    intros i (o & -> & Ho)%list_elem_of_fmap [E'|[]%elem_of_nil]%elem_of_cons.
    apply list_find_None in E. rewrite Forall_forall in E, Hwf.
    apply (E o Ho). apply Is_true_true. by apply wf_obj_has_key; [apply Hwf|].
Qed.

Lemma merged_wf_NoDup es :
  Forall wf_obj (merged rules es) /\ NoDup (id <$> merged rules es).
Proof.
  unfold merged.
  assert (Forall wf_obj [] /\ NoDup (id <$> @nil StremioChannel)) as H
    by (split; [constructor|apply NoDup_nil_2]).
  revert H. generalize (@nil StremioChannel).
  induction es as [|e es IH]; intros objs [Hwf Hnd]; [done|].
  simpl. apply IH. split; [by apply merge_entry_wf|by apply merge_entry_NoDup].
Qed.

End Merged.

Section FindAlter.

Context {A : Type} (P : A -> Prop) `{!forall x, Decision (P x)}.

Lemma list_find_alter_same f (l : list A) i o :
  list_find P l = Some (i, o) -> P (f o) ->
  list_find P (alter f i l) = Some (i, f o).
Proof.
  intros (Hi & Ho & Hlt)%list_find_Some Hf. apply list_find_Some.
  split; [by rewrite list_lookup_alter_eq, Hi|]. split; [done|].
  intros j y Hj Hji. rewrite list_lookup_alter_ne in Hj by lia. eauto.
Qed.

Lemma list_find_alter_other f (l : list A) : forall i,
  (forall o, l !! i = Some o -> ~ P o /\ ~ P (f o)) ->
  list_find P (alter f i l) = list_find P l.
Proof.
  induction l as [|x l IH]; intros [|i] Hi; try done.
  - destruct (Hi x eq_refl) as [H1 H2]. simpl.
    by rewrite !decide_False by done.
  - change (alter f (S i) (x :: l)) with (x :: alter f i l).
    cbn [list_find]. destruct (decide (P x)); [done|]. by rewrite IH.
Qed.

End FindAlter.

Section MergedFind.

Variable rules : gmap string string.

Lemma merged_snoc es e :
  merged rules (es ++ [e]) = merge_entry rules (merged rules es) e.
Proof. unfold merged. by rewrite fold_left_app. Qed.

Lemma push_urls_snoc ss s ch : push_urls (ss ++ [s]) ch = push_url s (push_urls ss ch).
Proof. unfold push_urls. by rewrite fold_left_app. Qed.

Lemma merge_entry_find_same objs e :
  snd <$> list_find (fun o => has_key (channelId_of rules e) o) (merge_entry rules objs e)
  = match snd <$> list_find (fun o => has_key (channelId_of rules e) o) objs with
    | Some o => Some (push_url (stream_of e) o)
    | None => Some (new_channel (channelId_of rules e) e)
    end.
Proof.
  unfold merge_entry. cbv zeta.
  destruct (list_find _ objs) as [[i o]|] eqn:F.
  - erewrite list_find_alter_same; [done|exact F|].
    apply list_find_Some in F as (_ & F & _). by rewrite has_key_push_url.
  - rewrite list_find_app_r by done. simpl.
    rewrite decide_True; [done|].
    apply Is_true_true, has_key_new, channelId_of_lower.
Qed.

Lemma merge_entry_find_other objs e X :
  X ≠ channelId_of rules e ->
  list_find (fun o => has_key X o) (merge_entry rules objs e)
  = list_find (fun o => has_key X o) objs.
Proof.
  intros Hne. unfold merge_entry. cbv zeta.
  destruct (list_find _ objs) as [[i o]|] eqn:F.
  - apply list_find_Some in F as (Hi & Ho & _).
    apply list_find_alter_other. intros o' Ho'.
    rewrite Hi in Ho'. injection Ho' as <-. rewrite has_key_push_url.
    split; intros HX; apply Hne; eapply has_key_inj; eauto.
  - destruct (list_find (fun o => has_key X o) objs) as [[j o]|] eqn:G.
    + by apply list_find_app_l.
    + rewrite list_find_app_r by done. simpl.
      rewrite decide_False; [done|].
      rewrite has_key_new_ne; [by intros []|apply channelId_of_lower|done].
Qed.

(** The object a document holds for an identity is the one built from the
    first entry with that identity, with the streams of the later entries
    with that identity pushed in order. *)
Lemma merged_find es X :
  snd <$> list_find (fun o => has_key X o) (merged rules es) = obj_for rules es X.
Proof.
  induction es as [|e es IH] using rev_ind; [done|].
  rewrite merged_snoc. unfold obj_for in *. rewrite List.filter_app. cbn [List.filter].
  destruct (decide (X = channelId_of rules e)) as [->|Hne].
  - rewrite bool_decide_true by done. rewrite merge_entry_find_same, IH.
    destruct (List.filter _ es) as [|e1 rest]; [done|]. simpl.
    rewrite List.map_app. cbn [map]. by rewrite push_urls_snoc.
  - rewrite bool_decide_false by done.
    rewrite app_nil_r, merge_entry_find_other by done. exact IH.
Qed.

Lemma id_push_urls ss ch : id (push_urls ss ch) = id ch.
Proof.
  revert ch. induction ss as [|s ss IH]; intros ch; [done|].
  unfold push_urls in *. simpl. by rewrite IH.
Qed.

Lemma urls_push_urls ss ch :
  urls (streamInfo (push_urls ss ch)) = urls (streamInfo ch) ++ ss.
Proof.
  revert ch. induction ss as [|s ss IH]; intros ch.
  - by rewrite app_nil_r.
  - unfold push_urls in *. simpl. rewrite IH. simpl. by rewrite <- app_assoc.
Qed.

(** Exactly one object of the document carries a given identity. *)
Lemma merged_filter es X o :
  obj_for rules es X = Some o ->
  List.filter (fun c => bool_decide (id c = "tv|" +:+ X)) (merged rules es) = [o].
Proof.
  intros H. rewrite <- merged_find in H.
  destruct (list_find _ _) as [[i o']|] eqn:F; [|done]. injection H as ->.
  apply list_find_Some in F as (Hi & Ho & _).
  destruct (merged_wf_NoDup rules es) as [Hwf Hnd].
  assert (id o = "tv|" +:+ X) as <-.
  { rewrite Forall_forall in Hwf.
    destruct (Hwf o) as (k & Hk & Hl & ->); [by eapply list_elem_of_lookup_2|].
    unfold has_key in Ho. rewrite Hk in Ho.
    apply bool_decide_unpack in Ho. congruence. }
  apply filter_id_unique; [done|]. by eapply list_elem_of_lookup_2.
Qed.

End MergedFind.

(** ** Uniqueness of identities *)

Section Parsed.

Lemma deref_dup_refs h0 objs m : forall k,
  k + m <= length objs ->
  deref (h0 ++ objs) (dup_refs (length h0) k m)
  = flat_map (fun o => [o; o]) (take m (drop k objs)).
Proof.
  induction m as [|m IH]; intros k Hk; [done|].
  destruct (lookup_lt_is_Some_2 objs k ltac:(lia)) as [o Ho].
  assert ((h0 ++ objs) !! (length h0 + k) = Some o) as Hr.
  { rewrite lookup_app_r by lia. by replace (length h0 + k - length h0) with k by lia. }
  rewrite dup_refs_S, (drop_S _ _ _ Ho). unfold deref in *.
  cbn [omap list_omap take flat_map]. rewrite Hr, IH by lia. done.
Qed.

(** [parseM3U] lists every channel object of the document twice. *)
Lemma parsed_twice content t :
  parsed (parseM3U content t)
  = flat_map (fun o => [o; o]) (merged (remappingRules t) (entries_of content)).
Proof.
  unfold parsed. destruct (parseM3U_rep content t) as [(Hh & Hc & _) ->].
  rewrite Hh, Hc, deref_dup_refs by (simpl; lia).
  by rewrite drop_0, take_ge.
Qed.

End Parsed.

(** C1. For every run the channels of the aggregated catalog have pairwise
    distinct identities.  The list one call of [parseM3U] returns does not:
    [transformChannelToStremio] pushes a new channel onto
    [stremioData.channels] and [parseM3U] pushes what it returns once more,
    so every channel of a document is listed twice, as the one-entry
    document [docA] shows. *)
Theorem catalog_ids_unique_but_parseM3U_lists_twice :
  (forall remapFile playlists t,
      NoDup (id <$> catalog (loadAndTransform remapFile playlists t)))
  /\ (forall content t,
        parsed (parseM3U content t)
        = flat_map (fun o => [o; o]) (merged (remappingRules t) (entries_of content)))
  /\ id <$> parsed (parseM3U Samples.docA constructor) = ["tv|a"; "tv|a"]
  /\ ~ NoDup (id <$> parsed (parseM3U Samples.docA constructor)).
Proof.
  split; [|split; [|split]].
  - intros. rewrite catalog_union_first. apply union_first_NoDup.
  - apply parsed_twice.
  - by vm_compute.
  - assert (id <$> parsed (parseM3U Samples.docA constructor) = ["tv|a"; "tv|a"]) as ->
      by (by vm_compute).
    intros [H _]%NoDup_cons. apply H. by left.
Qed.

(** ** Aggregation across documents *)

Lemma loadAndTransform_snoc_catalog remapFile playlists content t :
  catalog (loadAndTransform remapFile (playlists ++ [content]) t)
  = fold_left add_value
      (merged (remappingRules (fst (loadRemappingRules remapFile t))) (entries_of content))
      (catalog (loadAndTransform remapFile playlists t)).
Proof.
  rewrite !catalog_union_first. unfold union_first. by rewrite fold_left_app.
Qed.

(** C2, as stated, fails: [docA] and then [docB] both carry an entry with
    identity [a]; the catalog has the one channel [tv|a], and the stream of
    the later document is not among its streams. *)
Lemma later_document_stream_not_merged :
  let out := loadAndTransform ENOENT [Samples.docA; Samples.docB] constructor in
  (id <$> catalog out = ["tv|a"])
  /\ ~ exists ch, ch ∈ catalog out /\ id ch = "tv|a"
                  /\ {| su_url := Some "http://b/1"; su_name := "A two" |}
                       ∈ urls (streamInfo ch).
Proof.
  cbv zeta. split; [by vm_compute|].
  intros (ch & Hin & _ & Hs).
  assert (forall c, c ∈ catalog (loadAndTransform ENOENT [Samples.docA; Samples.docB] constructor) ->
                    urls (streamInfo c) = [{| su_url := Some "http://a/1"; su_name := "A one" |}]) as Hu.
  { intros c Hc. apply list_elem_of_In in Hc.
    assert (Forall (fun c => urls (streamInfo c)
                             = [{| su_url := Some "http://a/1"; su_name := "A one" |}])
                   (catalog (loadAndTransform ENOENT [Samples.docA; Samples.docB] constructor))) as HF.
    { vm_compute. repeat constructor. }
    rewrite Forall_forall in HF. apply HF. by apply list_elem_of_In. }
  rewrite (Hu ch Hin) in Hs.
  apply elem_of_cons in Hs as [Hs|Hs]; [discriminate|by apply elem_of_nil in Hs].
Qed.

(** C2, amended.  When a further document is aggregated, every channel
    already in the catalog stays the one channel of its identity, exactly as
    the earlier documents left it: display name, genre, artwork and streams.
    An entry of the later document with that identity adds nothing to it. *)
Theorem earlier_channel_kept_unchanged remapFile playlists content t ch :
  ch ∈ catalog (loadAndTransform remapFile playlists t) ->
  List.filter (fun c => bool_decide (id c = id ch))
              (catalog (loadAndTransform remapFile (playlists ++ [content]) t))
  = [ch].
Proof.
  intros Hin. apply filter_id_unique.
  - rewrite catalog_union_first. apply union_first_NoDup.
  - rewrite loadAndTransform_snoc_catalog.
    destruct (add_values_prefix
                (merged (remappingRules (fst (loadRemappingRules remapFile t)))
                        (entries_of content))
                (catalog (loadAndTransform remapFile playlists t))) as [extra ->].
    apply elem_of_app. by left.
Qed.

Lemma earlier_channel_kept_unchanged_witness :
  exists ch,
    ch ∈ catalog (loadAndTransform ENOENT [Samples.docA] constructor)
    /\ urls (streamInfo ch) = [{| su_url := Some "http://a/1"; su_name := "A one" |}]
    /\ List.filter (fun c => bool_decide (id c = id ch))
                   (catalog (loadAndTransform ENOENT ([Samples.docA] ++ [Samples.docB]) constructor))
       = [ch].
Proof.
  assert (exists ch, catalog (loadAndTransform ENOENT [Samples.docA] constructor) = [ch]
                     /\ urls (streamInfo ch)
                        = [{| su_url := Some "http://a/1"; su_name := "A one" |}])
    as (ch & E & Hu) by (vm_compute; eauto).
  assert (ch ∈ catalog (loadAndTransform ENOENT [Samples.docA] constructor)) as Hin
    by (rewrite E; apply list_elem_of_here).
  exists ch. split; [exact Hin|]. split; [exact Hu|].
  exact (earlier_channel_kept_unchanged ENOENT [Samples.docA] Samples.docB constructor ch Hin).
Defined.

(** ** Merging within a document and the remapping rules *)

Section SingleDocumentRun.

Lemma catalog_single remapFile content t :
  catalog (loadAndTransform remapFile [content] t)
  = merged (remappingRules (fst (loadRemappingRules remapFile t))) (entries_of content).
Proof.
  rewrite catalog_union_first. unfold union_first. cbn [fold_left].
  apply (add_values_fresh _ []). apply merged_wf_NoDup.
Qed.

Lemma loadRemappingRules_heap remapFile t :
  heap (fst (loadRemappingRules remapFile t)) = heap t.
Proof.
  destruct remapFile; try done. unfold loadRemappingRules.
  by destruct (fold_left _ _ _).
Qed.

Lemma heap_single remapFile content t :
  heap (fst (loadAndTransform remapFile [content] t))
  = heap t
    ++ merged (remappingRules (fst (loadRemappingRules remapFile t))) (entries_of content).
Proof.
  unfold loadAndTransform.
  pose proof (loadRemappingRules_heap remapFile t) as Hh.
  destruct (loadRemappingRules remapFile t) as [t1 log]. cbn [fst] in *.
  cbn [fold_left]. rewrite load_playlist_eq. cbv zeta. cbn [fst].
  destruct (parseM3U_rep content t1) as [(Hh' & _ & _) _]. by rewrite Hh', Hh.
Qed.

Lemma filter_has_key_id X (l : list StremioChannel) :
  Forall wf_obj l ->
  List.filter (has_key X) l = List.filter (fun c => bool_decide (id c = "tv|" +:+ X)) l.
Proof.
  intros H. apply List.filter_ext_in. intros o Ho%list_elem_of_In.
  rewrite Forall_forall in H. destruct (H o Ho) as (k & Hk & Hl & Hi).
  unfold has_key. rewrite Hk, Hi, Hl. apply bool_decide_ext.
  split; [by intros ->|]. cbv [String.append]. congruence.
Qed.

(** The stream of every entry is among the streams of the channel that
    carries the identity of the entry. *)
Lemma merged_entry_channel rules es e :
  e ∈ es ->
  exists ch, ch ∈ merged rules es
             /\ id ch = "tv|" +:+ channelId_of rules e
             /\ stream_of e ∈ urls (streamInfo ch).
Proof.
  intros He. set (X := channelId_of rules e).
  assert (e ∈ List.filter (fun e' => bool_decide (channelId_of rules e' = X)) es) as Hf.
  { apply list_elem_of_In, List.filter_In. split; [by apply list_elem_of_In|].
    by apply bool_decide_eq_true. }
  pose proof (merged_find rules es X) as Hm. unfold obj_for in Hm.
  destruct (List.filter _ es) as [|e1 rest]; [by apply elem_of_nil in Hf|].
  destruct (list_find _ _) as [[i o]|] eqn:F; [|done]. injection Hm as ->.
  apply list_find_Some in F as (Hi & _ & _).
  eexists. split; [by eapply list_elem_of_lookup_2|]. split.
  - by rewrite id_push_urls.
  - rewrite urls_push_urls. cbn [new_channel streamInfo urls].
    change ([stream_of e1] ++ map stream_of rest) with (stream_of <$> (e1 :: rest)).
    apply list_elem_of_fmap. eauto.
Qed.

End SingleDocumentRun.

(** C3. For every document with two entries whose identities after the
    remapping rules coincide, the catalog of the run over that document has
    exactly one channel with that identity: the channel built from the first
    entry (its display name, genre and artwork) with the stream of the second
    pushed after its own, so two streams in order of appearance; and the
    second entry allocated no channel object, only one object of the document
    carries the identity. *)
Theorem same_identity_entries_merge remapFile content t X e1 e2 :
  let rules := remappingRules (fst (loadRemappingRules remapFile t)) in
  List.filter (fun e => bool_decide (channelId_of rules e = X)) (entries_of content)
  = [e1; e2] ->
  let out := loadAndTransform remapFile [content] t in
  let ch := push_url (stream_of e2) (new_channel X e1) in
  List.filter (fun c => bool_decide (id c = "tv|" +:+ X)) (catalog out) = [ch]
  /\ urls (streamInfo ch) = [stream_of e1; stream_of e2]
  /\ ch_name ch = or_else (tvg e1 !! "name") (name e1)
  /\ genre ch = [or_else (Some (group e1)) uncategorized]
  /\ logo ch = tvg e1 !! "logo"
  /\ List.filter (has_key X) (drop (length (heap t)) (heap (fst out))) = [ch].
Proof.
  intros rules H out ch.
  assert (obj_for rules (entries_of content) X = Some ch) as Ho
    by (unfold obj_for; by rewrite H).
  pose proof (merged_filter _ _ _ _ Ho) as Hf.
  repeat split; try done.
  - subst out. by rewrite catalog_single.
  - subst out. rewrite heap_single, drop_app_length.
    rewrite filter_has_key_id; [done|]. apply merged_wf_NoDup.
Qed.

Lemma same_identity_entries_merge_witness :
  let rules := remappingRules (fst (loadRemappingRules Samples.remapFoo constructor)) in
  let out := loadAndTransform Samples.remapFoo [Samples.docMerge] constructor in
  let ch := push_url (stream_of Samples.fooEntry) (new_channel "chbar" Samples.barEntry) in
  List.filter (fun e => bool_decide (channelId_of rules e = "chbar"))
              (entries_of Samples.docMerge) = [Samples.barEntry; Samples.fooEntry]
  /\ List.filter (fun c => bool_decide (id c = "tv|" +:+ "chbar")) (catalog out) = [ch]
  /\ urls (streamInfo ch)
     = [{| su_url := Some "http://s/bar1"; su_name := "Bar HD" |};
        {| su_url := Some "http://s/foo1"; su_name := "Foo SD" |}]
  /\ ch_name ch = "Bar"
  /\ genre ch = ["News"]
  /\ logo ch = Some "http://l/bar.png".
Proof.
  cbv zeta.
  assert (List.filter
            (fun e => bool_decide
                        (channelId_of
                           (remappingRules (fst (loadRemappingRules Samples.remapFoo constructor)))
                           e = "chbar"))
            (entries_of Samples.docMerge) = [Samples.barEntry; Samples.fooEntry]) as E
    by (vm_compute; reflexivity).
  destruct (same_identity_entries_merge Samples.remapFoo Samples.docMerge constructor
              "chbar" Samples.barEntry Samples.fooEntry E) as (Hc & _).
  split; [exact E|]. split; [exact Hc|]. vm_compute. repeat split.
Defined.

(** C5. For every rule set that maps the lower-cased explicit identity
    attribute of an entry to a canonical value, the resolver gives the entry
    that value lower-cased as its identity, and the catalog of the run over
    the document of the entry has a channel whose [id] is that identity with
    the live-TV prefix and whose streams include the stream of the entry. *)
Theorem remap_rule_applied remapFile content t e s v :
  let rules := remappingRules (fst (loadRemappingRules remapFile t)) in
  e ∈ entries_of content ->
  tvg e !! "id" = Some s ->
  s ≠ EmptyString ->
  rules !! toLowerCase s = Some v ->
  channelId_of rules e = toLowerCase v
  /\ exists ch, ch ∈ catalog (loadAndTransform remapFile [content] t)
                /\ id ch = "tv|" +:+ toLowerCase v
                /\ stream_of e ∈ urls (streamInfo ch).
Proof.
  intros rules He Hs Hne Hv.
  assert (channelId_of rules e = toLowerCase v) as Hid.
  { unfold channelId_of. rewrite Hs. cbv zeta.
    assert (or_else (Some s) (trim (name e)) = s) as -> by (by destruct s).
    by rewrite Hv. }
  split; [done|]. rewrite catalog_single, <- Hid.
  by apply merged_entry_channel.
Qed.

Lemma remap_rule_applied_witness :
  Samples.fooEntry ∈ entries_of Samples.docMerge
  /\ tvg Samples.fooEntry !! "id" = Some "chfoo"
  /\ channelId_of (remappingRules (fst (loadRemappingRules Samples.remapFoo constructor)))
                  Samples.fooEntry
     = "chbar"
  /\ exists ch, ch ∈ catalog (loadAndTransform Samples.remapFoo [Samples.docMerge] constructor)
                /\ id ch = "tv|chbar"
                /\ stream_of Samples.fooEntry ∈ urls (streamInfo ch).
Proof.
  assert (entries_of Samples.docMerge !! 2 = Some Samples.fooEntry) as He
    by (vm_compute; reflexivity).
  assert (tvg Samples.fooEntry !! "id" = Some "chfoo") as Hs by (vm_compute; reflexivity).
  assert (remappingRules (fst (loadRemappingRules Samples.remapFoo constructor))
            !! toLowerCase "chfoo" = Some "chbar") as Hv by (vm_compute; reflexivity).
  apply list_elem_of_lookup_2 in He.
  split; [exact He|]. split; [exact Hs|].
  exact (remap_rule_applied Samples.remapFoo Samples.docMerge constructor
           Samples.fooEntry "chfoo" "chbar" He Hs ltac:(discriminate) Hv).
Defined.

(** ** Completing the pending entry *)

Section PendingEntry.

Context {A : Type} (emit : M3UChannel -> A -> A).

Lemma http_not_extinf s : startsWith "http" s = true -> startsWith "#EXTINF:" s = false.
Proof.
  intros H. destruct s as [|c s]; [done|].
  destruct (ascii_dec c "#") as [->|Hc].
  - by vm_compute in H.
  - unfold startsWith. cbn [String.prefix].
    destruct (ascii_dec "#" c); [congruence|done].
Qed.

Lemma parse_lines_skip (opts rest : list string) cur acc :
  parse_lines emit (length opts) (opts ++ rest) cur acc
  = parse_lines emit 0 rest cur acc.
Proof.
  induction opts as [|o opts IH]; simpl; [by destruct rest|].
  destruct opts; simpl in *; exact IH.
Qed.

Lemma parse_lines_passed_over (junk rest : list string) cur acc :
  Forall passed_over junk ->
  parse_lines emit 0 (junk ++ rest) cur acc = parse_lines emit 0 rest cur acc.
Proof.
  induction 1 as [|l junk [H1 H2] _ IH]; [done|].
  simpl. by rewrite H1, H2.
Qed.

Lemma parse_lines_http urlLine rest channel acc :
  startsWith "http" (trim urlLine) = true ->
  parse_lines emit 0 (urlLine :: rest) (Some channel) acc
  = parse_lines emit 0 rest None (emit (set_url (trim urlLine) channel) acc).
Proof.
  intros H. simpl. by rewrite (http_not_extinf _ H), H.
Qed.

(** The option lines right after a metadata line are all consumed. *)
Lemma parseVLCOpts_from_app opts rest : forall hdrs,
  Forall (fun l => startsWith "#EXTVLCOPT:" l = true) opts ->
  match rest with
  | l :: _ => startsWith "#EXTVLCOPT:" l = false
  | [] => True
  end ->
  parseVLCOpts_from hdrs (opts ++ rest)
  = (fst (parseVLCOpts_from hdrs opts), length opts).
Proof.
  induction opts as [|o opts IH]; intros hdrs Ho Hr.
  - simpl. destruct rest as [|l rest]; [done|]. simpl. by rewrite Hr.
  - apply Forall_cons in Ho as [Ho Hos]. simpl. rewrite Ho.
    rewrite IH by done. by destruct (parseVLCOpts_from _ opts).
Qed.

End PendingEntry.

(** C6, as stated, fails: a stream line with another scheme than http does
    not complete the entry; the document [docRtmp] yields no entry and no
    channel. *)
Lemma rtmp_line_completes_nothing :
  startsWith "#EXTINF:" "rtmp://s/r" = false
  /\ entries_of Samples.docRtmp = []
  /\ catalog (loadAndTransform ENOENT [Samples.docRtmp] constructor) = [].
Proof. by vm_compute. Qed.

(** C6, amended.  For a metadata line followed by its option lines, then
    by lines that are neither metadata lines nor, once trimmed, lines
    beginning with http (lines with another URL scheme among them), and then
    by a line that once trimmed begins with http: that line is taken as the
    stream URL, the entry read off the metadata line with the headers of the
    option lines is handed on completed, and the loop goes on with no
    pending entry; the lines in between leave the pending entry as it is. *)
Theorem http_line_completes_entry {A : Type} (emit : M3UChannel -> A -> A)
    (metaLine : string) (opts junk : list string) (urlLine : string)
    (rest : list string) (cur : option M3UChannel) (acc : A) :
  startsWith "#EXTINF:" (trim metaLine) = true ->
  Forall (fun l => startsWith "#EXTVLCOPT:" l = true) opts ->
  Forall passed_over junk ->
  match junk ++ [urlLine] with
  | l :: _ => startsWith "#EXTVLCOPT:" l = false
  | [] => True
  end ->
  startsWith "http" (trim urlLine) = true ->
  parse_lines emit 0 (metaLine :: opts ++ junk ++ urlLine :: rest) cur acc
  = parse_lines emit 0 rest None
      (emit (set_url (trim urlLine)
                     (parse_extinf (trim metaLine) (fst (parseVLCOpts opts))))
            acc).
Proof.
  intros Hm Ho Hj Hstop Hu.
  cbn [parse_lines]. rewrite Hm. unfold parseVLCOpts.
  rewrite (parseVLCOpts_from_app opts (junk ++ urlLine :: rest)); [|done|].
  - rewrite parse_lines_skip, parse_lines_passed_over by done.
    by apply parse_lines_http.
  - destruct junk; exact Hstop.
Qed.

Lemma http_line_completes_entry_witness :
  let metaLine := dq "#EXTINF:-1 tvg-id='r' group-title='News',R" in
  parse_lines (fun e acc => acc ++ [e]) 0
              (metaLine :: ["#EXTVLCOPT:http-user-agent=UA1"]
                 ++ ["rtmp://s/r"; EmptyString; "# note"] ++ " http://s/r  " :: ["#EXTINF:-1,Next"])
              None []
  = parse_lines (fun e acc => acc ++ [e]) 0 ["#EXTINF:-1,Next"] None
      ([] ++ [set_url "http://s/r"
                (parse_extinf metaLine (<["User-Agent" := "UA1"]> ∅))]).
Proof.
  cbv zeta.
  refine (http_line_completes_entry (fun e acc => acc ++ [e])
            (dq "#EXTINF:-1 tvg-id='r' group-title='News',R")
            ["#EXTVLCOPT:http-user-agent=UA1"] ["rtmp://s/r"; EmptyString; "# note"]
            " http://s/r  " ["#EXTINF:-1,Next"] None [] _ _ _ _ _).
  - by vm_compute.
  - repeat constructor.
  - repeat constructor.
  - by vm_compute.
  - by vm_compute.
Defined.

(** ** Genres *)

Section Genres.


Lemma set_add_keeps g x s : x ∈ s -> x ∈ set_add g s.
Proof.
  intros H. unfold set_add. case_bool_decide; [done|].
  apply elem_of_app. by left.
Qed.

Lemma set_add_adds g s : g ∈ set_add g s.
Proof.
  unfold set_add. case_bool_decide; [done|].
  apply elem_of_app. right. by left.
Qed.



Lemma fold_set_add_keeps gs : forall s x,
  x ∈ s -> x ∈ fold_left (fun s g => set_add g s) gs s.
Proof.
  induction gs as [|g gs IH]; intros s x H; [done|].
  simpl. by apply IH, set_add_keeps.
Qed.

Lemma fold_set_add_adds gs : forall s x,
  x ∈ gs -> x ∈ fold_left (fun s g => set_add g s) gs s.
Proof.
  induction gs as [|g gs IH]; intros s x H; [by apply elem_of_nil in H|].
  simpl. apply elem_of_cons in H as [->|H].
  - apply fold_set_add_keeps, set_add_adds.
  - by apply IH.
Qed.


End Genres.




(** ** Rules across runs *)

Lemma add_rules_keep ks : forall (rules : gmap string string) k,
  is_Some (rules !! k) -> is_Some (fold_left add_rule ks rules !! k).
Proof.
  induction ks as [|l ks IH]; intros rules k H; [done|].
  simpl. apply IH. destruct l as [| |key value]; try done.
  simpl. destruct (decide (key = k)) as [->|Hne].
  - rewrite lookup_insert_eq. eauto.
  - by rewrite lookup_insert_ne.
Qed.

(** [loadRemappingRules] only ever adds to [remappingRules]: whatever the
    file read gives, a key that was mapped before the load is mapped after
    it. *)
Lemma loadRemappingRules_keeps file t k :
  is_Some (remappingRules t !! k) ->
  is_Some (remappingRules (fst (loadRemappingRules file t)) !! k).
Proof.
  destruct file as [content| |]; intros H; try done.
  rewrite loadRemappingRules_content. by apply add_rules_keep.
Qed.

(** C10.  The rule map is not reloaded from empty: on one instance a rule
    outlives its removal from the file.  After a run with the rule
    [chfoo=chbar], a run with an empty rule file (or with no file) still has
    the rule and still publishes the entry [chfoo] as [tv|chbar], where a new
    instance has no rule and publishes [tv|chfoo]. *)
Theorem remap_rules_outlive_the_file :
  let run1 := loadAndTransform Samples.remapFoo [Samples.docFoo] constructor in
  let run2 := loadAndTransform (FileContent EmptyString) [Samples.docFoo] (fst run1) in
  let fresh := loadAndTransform (FileContent EmptyString) [Samples.docFoo] constructor in
  remappingRules (fst run2) !! "chfoo" = Some "chbar"
  /\ id <$> catalog run2 = ["tv|chbar"]
  /\ remappingRules (fst fresh) !! "chfoo" = None
  /\ id <$> catalog fresh = ["tv|chfoo"]
  /\ remappingRules (fst (loadAndTransform ENOENT [] (fst run1))) !! "chfoo" = Some "chbar".
Proof. by vm_compute. Qed.

(** ** Attributes of a metadata line *)

(** C4.  A quoted value is bound to its attribute name, with the prefix
    stripped, only up to its first equals sign: the matched text is split at
    every equals sign and the second piece is taken.  The logo URL of
    [docLogo] loses its query value.  A token that is not a quoted pair gives
    no attribute and the pairs after it are still read. *)
Theorem attribute_value_cut_at_equals :
  parse_tvg (dq "-1 tvg-id='a' tvg-logo='http://l/a.png?s=1' group-title='News',A") !! "logo"
  = Some "http://l/a.png?s"
  /\ logo <$> catalog (loadAndTransform ENOENT [Samples.docLogo] constructor)
     = [Some "http://l/a.png?s"]
  /\ parse_tvg (dq "-1 tvg-id='a' tvg-name='N',A") !! "id" = Some "a"
  /\ parse_tvg (dq "-1 tvg-id=a tvg-name='N',A") !! "id" = None
  /\ parse_tvg (dq "-1 tvg-id=a tvg-name='N',A") !! "name" = Some "N".
Proof. by vm_compute. Qed.

(** ** The guide URLs of three documents *)

Example guideUrl_union_example :
  guideUrl_of Samples.docA = Some "http://x/epg1"
  /\ guideUrl_of Samples.docB = Some "http://x/epg1"
  /\ guideUrl_of Samples.docC = Some "http://x/epg2"
  /\ s_epgUrl (snd (loadAndTransform ENOENT [Samples.docA; Samples.docB; Samples.docC] constructor))
     = Some "http://x/epg1,http://x/epg2"
  /\ s_epgUrl (snd (loadAndTransform ENOENT [Samples.docFoo] constructor)) = None.
Proof. by vm_compute. Qed.


(** * Further properties of the transformer *)

(** ** The snapshot as a function of the rules and the documents *)

Section SnapshotValues.

Lemma genres_of_snoc objs o :
  genres_of (objs ++ [o]) = fold_left (fun s g => set_add g s) (genre o) (genres_of objs).
Proof.
  unfold genres_of. rewrite fmap_app, concat_app, fold_left_app. simpl.
  by rewrite app_nil_r.
Qed.

Lemma genres_of_alter s i objs :
  genres_of (alter (push_url s) i objs) = genres_of objs.
Proof.
  unfold genres_of. by rewrite (list_fmap_alter genre _ (fun x => x)), list_alter_id
    by (done || by apply Forall_true).
Qed.

(** One completed entry: the genre set follows the objects. *)
Lemma emit_channel_genres_of h0 rules objs t e :
  Rep h0 rules objs t -> genres t = genres_of objs ->
  genres (emit_channel e t) = genres_of (merge_entry rules objs e).
Proof.
  intros (Hh & Hc & Hr) Hg.
  unfold emit_channel, transformChannelToStremio, merge_entry. cbv zeta.
  rewrite Hh, Hc, Hr, find_channels.
  destruct (list_find _ objs) as [[i o]|]; simpl.
  - by rewrite genres_of_alter.
  - by rewrite genres_of_snoc, Hg.
Qed.

Lemma emit_channels_genres_of h0 rules es : forall objs t,
  Rep h0 rules objs t -> genres t = genres_of objs ->
  genres (fold_left (fun a e => emit_channel e a) es t)
  = genres_of (fold_left (merge_entry rules) es objs).
Proof.
  induction es as [|e es IH]; intros objs t HR Hg; [done|].
  simpl. apply IH; [by apply emit_channel_rep|by apply (emit_channel_genres_of h0)].
Qed.

Lemma parseM3U_genres_of content t :
  r_genres (snd (parseM3U content t))
  = genres_of (merged (remappingRules t) (entries_of content)).
Proof.
  unfold parseM3U. cbv zeta. cbn [snd r_genres].
  rewrite parse_lines_entries.
  apply (emit_channels_genres_of (heap t)); [|done].
  repeat split; simpl. by rewrite app_nil_r.
Qed.

Lemma parseM3U_rules content t :
  remappingRules (fst (parseM3U content t)) = remappingRules t.
Proof. by destruct (parseM3U_rep content t) as [(_ & _ & ?) _]. Qed.

Lemma load_playlists_all_genres rules playlists : forall t agg,
  remappingRules t = rules ->
  allGenres (snd (fold_left load_playlist playlists (t, agg)))
  = fold_left
      (fun all content =>
         fold_left (fun s g => set_add g s) (genres_of (merged rules (entries_of content))) all)
      playlists (allGenres agg).
Proof.
  induction playlists as [|d ds IH]; intros t agg Hr; [done|].
  cbn [fold_left]. rewrite load_playlist_eq. cbv zeta.
  rewrite IH by (by rewrite parseM3U_rules).
  cbn [allGenres]. by rewrite parseM3U_genres_of, Hr.
Qed.

Lemma loadAndTransform_genres remapFile playlists t :
  s_genres (snd (loadAndTransform remapFile playlists t))
  = all_genres (remappingRules (fst (loadRemappingRules remapFile t))) playlists.
Proof.
  unfold loadAndTransform, all_genres.
  destruct (loadRemappingRules remapFile t) as [t1 log]. cbn [fst].
  pose proof (load_playlists_all_genres (remappingRules t1) playlists t1
                {| allChannels := []; allGenres := []; allEpgUrls := [] |} eq_refl) as H.
  destruct (fold_left load_playlist playlists _) as [t2 agg]. exact H.
Qed.

Lemma loadAndTransform_epgUrl remapFile (playlists : list string) t :
  s_epgUrl (snd (loadAndTransform remapFile playlists t))
  = guide_union (omap guideUrl_of playlists).
Proof.
  unfold loadAndTransform.
  destruct (loadRemappingRules remapFile t) as [t1 log].
  destruct (fold_left load_playlist playlists _) as [t2 agg] eqn:E.
  simpl.
  assert (allEpgUrls agg = first_occurrences (omap guideUrl_of playlists)) as ->.
  { change agg with (snd (t2, agg)). rewrite <- E, load_playlist_fold.
    rewrite first_occurrences_fold. simpl. apply filter_not_in_nil. }
  unfold guide_union. by destruct (first_occurrences _).
Qed.

Lemma snapshot_values_eq remapFile playlists t :
  snapshot_values (loadAndTransform remapFile playlists t)
  = (all_genres (remappingRules (fst (loadRemappingRules remapFile t))) playlists,
     union_first (remappingRules (fst (loadRemappingRules remapFile t))) playlists,
     guide_union (omap guideUrl_of playlists)).
Proof.
  unfold snapshot_values.
  by rewrite loadAndTransform_genres, catalog_union_first, loadAndTransform_epgUrl.
Qed.

End SnapshotValues.

(** X1. What a run returns depends on the instance only through the rules in
    force after the rule file is read: two instances with the same rules
    then, whatever channels, genres and heap they hold from before, return
    the same genres, channels and guide URL for the same documents. *)
Theorem snapshot_independent_of_earlier_state remapFile playlists t t' :
  remappingRules (fst (loadRemappingRules remapFile t))
  = remappingRules (fst (loadRemappingRules remapFile t')) ->
  snapshot_values (loadAndTransform remapFile playlists t)
  = snapshot_values (loadAndTransform remapFile playlists t').
Proof. intros H. by rewrite !snapshot_values_eq, H. Qed.

(** ** The rule store *)

Section RuleStore.

Lemma lookup_add_rules ks : forall (m : gmap string string) k,
  fold_left add_rule ks m !! k
  = match last_rule k ks with Some v => Some v | None => m !! k end.
Proof.
  induction ks as [|l ks IH]; intros m k; [done|].
  cbn [fold_left last_rule]. rewrite IH.
  destruct (last_rule k ks); [done|].
  destruct l as [| |key v]; try done. simpl.
  case_bool_decide as E.
  - subst. by rewrite lookup_insert_eq.
  - by rewrite lookup_insert_ne.
Qed.

Lemma add_rules_twice ks (m : gmap string string) :
  fold_left add_rule ks (fold_left add_rule ks m) = fold_left add_rule ks m.
Proof.
  apply map_eq. intros k. rewrite !lookup_add_rules.
  by destruct (last_rule k ks).
Qed.

Lemma is_ws_lower_char c : is_ws (lower_char c) = is_ws c.
Proof. destruct c as [[] [] [] [] [] [] [] []]; reflexivity. Qed.

Lemma trimStart_toLowerCase s : trimStart (toLowerCase s) = toLowerCase (trimStart s).
Proof.
  induction s as [|c s IH]; [done|]. simpl. rewrite is_ws_lower_char.
  by destruct (is_ws c).
Qed.

Lemma trimEnd_toLowerCase s : trimEnd (toLowerCase s) = toLowerCase (trimEnd s).
Proof.
  induction s as [|c s IH]; [done|]. simpl. rewrite IH, is_ws_lower_char.
  destruct (trimEnd s); simpl; [by destruct (is_ws c)|done].
Qed.

Lemma trim_toLowerCase s : trim (toLowerCase s) = toLowerCase (trim s).
Proof. unfold trim. by rewrite trimStart_toLowerCase, trimEnd_toLowerCase. Qed.

Lemma trimEnd_idem s : trimEnd (trimEnd s) = trimEnd s.
Proof.
  induction s as [|c s IH]; [done|]. simpl.
  destruct (trimEnd s) as [|d r] eqn:E.
  - destruct (is_ws c) eqn:W; [done|]. simpl. by rewrite W.
  - simpl in *. by rewrite IH.
Qed.

Lemma trimStart_head s :
  trimStart s = EmptyString \/ exists c r, trimStart s = String c r /\ is_ws c = false.
Proof.
  induction s as [|c s IH]; [by left|]. simpl.
  destruct (is_ws c) eqn:W; [done|]. right. eauto.
Qed.

Lemma trimStart_trimEnd c r :
  is_ws c = false -> trimStart (trimEnd (String c r)) = trimEnd (String c r).
Proof.
  intros W. cbn [trimEnd]. destruct (trimEnd r); rewrite ?W; simpl; by rewrite W.
Qed.

Lemma trim_idem s : trim (trim s) = trim s.
Proof.
  unfold trim. destruct (trimStart_head s) as [->|(c & r & -> & W)]; [done|].
  by rewrite trimStart_trimEnd, trimEnd_idem.
Qed.

Lemma classify_rule_normalized line k v :
  classify line = Rule k v -> normalized k /\ normalized v.
Proof.
  unfold classify. cbv zeta.
  case_bool_decide; [done|]. destruct (startsWith "#" _); [done|].
  destruct (value_part _) as [w|]; [|done].
  case_bool_decide as Hk; [done|]. case_bool_decide as Hv; [done|].
  intros [= <- <-]. unfold normalized.
  rewrite !toLowerCase_idem, !trim_toLowerCase, !trim_idem.
  repeat split; try done; by rewrite toLowerCase_empty.
Qed.

Lemma last_rule_from_line k ks v :
  last_rule k ks = Some v -> Rule k v ∈ ks.
Proof.
  induction ks as [|l ks IH]; [done|]. cbn [last_rule].
  destruct (last_rule k ks) as [w|].
  - intros [= ->]. right. by apply IH.
  - destruct l as [| |key w]; try done. case_bool_decide; [|done].
    intros [= ->]. subst. by left.
Qed.

Lemma loadAndTransform_rules remapFile playlists t :
  remappingRules (fst (loadAndTransform remapFile playlists t))
  = remappingRules (fst (loadRemappingRules remapFile t)).
Proof.
  unfold loadAndTransform.
  destruct (loadRemappingRules remapFile t) as [t1 log]. cbn [fst].
  assert (forall t agg,
             remappingRules (fst (fold_left load_playlist playlists (t, agg)))
             = remappingRules t) as H.
  { induction playlists as [|d ds IH]; intros t0 agg; [done|].
    cbn [fold_left]. rewrite load_playlist_eq. cbv zeta.
    by rewrite IH, parseM3U_rules. }
  specialize (H t1 {| allChannels := []; allGenres := []; allEpgUrls := [] |}).
  by destruct (fold_left load_playlist playlists _).
Qed.

Lemma loadRemappingRules_twice remapFile t :
  remappingRules (fst (loadRemappingRules remapFile (fst (loadRemappingRules remapFile t))))
  = remappingRules (fst (loadRemappingRules remapFile t)).
Proof.
  destruct remapFile as [content| |]; try done.
  rewrite !loadRemappingRules_content. cbn [fst remappingRules].
  apply add_rules_twice.
Qed.

End RuleStore.

(** X2. After the rule file is read, the rule in force for a key is the
    value of the last well-formed line of the file for that key; a key the
    file has no well-formed line for keeps the rule the instance had. *)
Theorem last_rule_line_wins content t k :
  remappingRules (fst (loadRemappingRules (FileContent content) t)) !! k
  = match last_rule k (map classify (split LF content)) with
    | Some v => Some v
    | None => remappingRules t !! k
    end.
Proof. rewrite loadRemappingRules_content. apply lookup_add_rules. Qed.

(** X3. Every rule a new instance holds after reading a rule file has a key
    and a value that are not empty, lower-case and free of white space at
    both ends. *)
Theorem stored_rules_normalized file k v :
  remappingRules (fst (loadRemappingRules file constructor)) !! k = Some v ->
  normalized k /\ normalized v.
Proof.
  destruct file as [content| |]; try done.
  rewrite loadRemappingRules_content. cbn [fst remappingRules].
  rewrite lookup_add_rules.
  destruct (last_rule k _) as [w|] eqn:E; [|done]. intros [= ->].
  apply last_rule_from_line, list_elem_of_fmap in E as (line & E & _).
  by eapply classify_rule_normalized.
Qed.

Lemma stored_rules_normalized_witness :
  remappingRules (fst (loadRemappingRules (FileContent "  ChFoo = CHBAR  ") constructor))
    !! "chfoo" = Some "chbar"
  /\ normalized "chfoo" /\ normalized "chbar".
Proof.
  assert (remappingRules (fst (loadRemappingRules (FileContent "  ChFoo = CHBAR  ") constructor))
            !! "chfoo" = Some "chbar") as H by (vm_compute; reflexivity).
  split; [exact H|].
  exact (stored_rules_normalized (FileContent "  ChFoo = CHBAR  ") "chfoo" "chbar" H).
Defined.

(** X4. Repeating a run on the same instance, with the same rule file and
    the same documents, returns the same genres, channels and guide URL as
    the first run did. *)
Theorem run_again_same_snapshot remapFile playlists t :
  snapshot_values (loadAndTransform remapFile playlists
                     (fst (loadAndTransform remapFile playlists t)))
  = snapshot_values (loadAndTransform remapFile playlists t).
Proof.
  rewrite !snapshot_values_eq.
  assert (remappingRules
            (fst (loadRemappingRules remapFile (fst (loadAndTransform remapFile playlists t))))
          = remappingRules (fst (loadRemappingRules remapFile t))) as ->; [|done].
  pose proof (loadAndTransform_rules remapFile playlists t) as H.
  destruct remapFile as [content| |]; try exact H.
  rewrite !loadRemappingRules_content in *. cbn [fst remappingRules] in *.
  rewrite H. apply add_rules_twice.
Qed.

Lemma snapshot_independent_of_earlier_state_witness :
  let used := fst (loadAndTransform Samples.remapFoo [Samples.docMerge] constructor) in
  let fresh := fst (loadRemappingRules Samples.remapFoo constructor) in
  length (heap used) = 2
  /\ snapshot_values (loadAndTransform ENOENT [Samples.docA; Samples.docC] used)
     = snapshot_values (loadAndTransform ENOENT [Samples.docA; Samples.docC] fresh).
Proof.
  cbv zeta. split; [by vm_compute|].
  apply snapshot_independent_of_earlier_state. by vm_compute.
Defined.

(** ** The channels of the catalog *)

Section CatalogChannels.

Variable rules : gmap string string.

Lemma elem_of_add_values ch objs : forall all,
  ch ∈ fold_left add_value objs all -> ch ∈ all \/ ch ∈ objs.
Proof.
  induction objs as [|o objs IH]; intros all H; [by left|].
  simpl in H. apply IH in H as [H|H].
  - unfold add_value in H. destruct (existsb _ all); [by left|].
    apply elem_of_app in H as [H|H]; [by left|].
    apply list_elem_of_singleton in H as ->. right. by left.
  - right. by right.
Qed.

Lemma elem_of_union_first playlists ch :
  ch ∈ union_first rules playlists ->
  exists content, content ∈ playlists /\ ch ∈ merged rules (entries_of content).
Proof.
  unfold union_first.
  assert (forall all,
             ch ∈ fold_left (fun all content =>
                               fold_left add_value (merged rules (entries_of content)) all)
                            playlists all ->
             ch ∈ all \/ exists content, content ∈ playlists
                                        /\ ch ∈ merged rules (entries_of content)) as H.
  { induction playlists as [|d ds IH]; intros all H; [by left|].
    simpl in H. apply IH in H as [H|(c & Hc & H)].
    - apply elem_of_add_values in H as [H|H]; [by left|].
      right. exists d. split; [by left|done].
    - right. exists c. split; [by right|done]. }
  intros Hin. destruct (H [] Hin) as [Hn|Hn]; [by apply elem_of_nil in Hn|done].
Qed.

Lemma channel_ok_new X e : toLowerCase X = X -> channel_ok (new_channel X e).
Proof.
  intros H. split; [by apply wf_obj_new|]. unfold new_channel. cbn.
  repeat split; try done.
  - by rewrite lookup_insert_eq.
  - eexists. split; [done|]. unfold or_else. by destruct (group e).
Qed.

Lemma channel_ok_push_url s o : channel_ok o -> channel_ok (push_url s o).
Proof.
  intros (Hw & Hu & ?). split; [by apply wf_obj_push_url|].
  split; [|done]. cbn. by destruct (urls (streamInfo o)).
Qed.

Lemma merged_channel_ok es : Forall channel_ok (merged rules es).
Proof.
  unfold merged. generalize (Forall_nil_2 channel_ok). generalize (@nil StremioChannel).
  induction es as [|e es IH]; intros objs H; [done|].
  simpl. apply IH. unfold merge_entry. cbv zeta.
  destruct (list_find _ objs) as [[i o]|].
  - apply Forall_alter; [done|]. intros. by apply channel_ok_push_url.
  - apply Forall_app. split; [done|]. apply Forall_singleton.
    apply channel_ok_new, channelId_of_lower.
Qed.

Lemma wf_obj_key_id X o : wf_obj o -> has_key X o = true -> id o = "tv|" +:+ X.
Proof.
  intros (k & Hk & Hl & ->). unfold has_key. rewrite Hk.
  intros E%bool_decide_eq_true. congruence.
Qed.

Lemma elem_of_add_id x all i : x ∈ add_id all i <-> x ∈ all \/ x = i.
Proof.
  unfold add_id. case_bool_decide.
  - split; [by left|]. by intros [?| ->].
  - by rewrite elem_of_app, list_elem_of_singleton.
Qed.

Lemma elem_of_add_ids x l : forall all,
  x ∈ fold_left add_id l all <-> x ∈ all \/ x ∈ l.
Proof.
  induction l as [|i l IH]; intros all; simpl.
  - split; [by left|]. intros [?|[]%elem_of_nil]. done.
  - rewrite IH, elem_of_add_id, elem_of_cons. tauto.
Qed.

Lemma add_ids_absorb l : forall all,
  fold_left add_id (fold_left add_id l []) all = fold_left add_id l all.
Proof.
  induction l as [|x l IH] using rev_ind; intros all; [done|].
  rewrite !fold_left_app. cbn [fold_left]. unfold add_id at 2.
  case_bool_decide as Hx.
  - rewrite IH. unfold add_id. rewrite bool_decide_true; [done|].
    apply elem_of_add_ids. right.
    apply elem_of_add_ids in Hx as [[]%elem_of_nil|Hx]. done.
  - rewrite fold_left_app. cbn [fold_left]. by rewrite IH.
Qed.

Lemma ids_add_value all o : id <$> add_value all o = add_id (id <$> all) (id o).
Proof.
  unfold add_value, add_id.
  destruct (existsb _ all) eqn:E.
  - apply existsb_id_elem in E. by rewrite bool_decide_true.
  - rewrite bool_decide_false, fmap_app; [done|].
    intros Hin%existsb_id_elem. congruence.
Qed.

Lemma ids_add_values objs : forall all,
  id <$> fold_left add_value objs all = fold_left add_id (id <$> objs) (id <$> all).
Proof.
  induction objs as [|o objs IH]; intros all; [done|].
  simpl. by rewrite IH, ids_add_value.
Qed.

Lemma ids_merge_entry objs e :
  Forall wf_obj objs ->
  id <$> merge_entry rules objs e = add_id (id <$> objs) (tv_id rules e).
Proof.
  intros Hwf. unfold merge_entry, add_id, tv_id. cbv zeta.
  destruct (list_find _ objs) as [[i o]|] eqn:E.
  - rewrite (list_fmap_alter id _ (fun x => x)), list_alter_id
      by (done || by apply Forall_true).
    apply list_find_Some in E as (Hi & Ho & _).
    rewrite bool_decide_true; [done|]. apply list_elem_of_fmap. exists o.
    apply list_elem_of_lookup_2 in Hi. split; [|done].
    symmetry. apply wf_obj_key_id; [|by apply Is_true_true].
    rewrite Forall_forall in Hwf. by apply Hwf.
  - rewrite fmap_app. rewrite bool_decide_false; [done|].
    intros (o & Hid & Ho)%list_elem_of_fmap.
    apply list_find_None in E. rewrite Forall_forall in E, Hwf.
    apply (E o Ho). apply Is_true_true. by apply wf_obj_has_key; [apply Hwf|].
Qed.

Lemma ids_merged es :
  id <$> merged rules es = fold_left add_id (tv_id rules <$> es) [].
Proof.
  induction es as [|e es IH] using rev_ind; [done|].
  rewrite merged_snoc, ids_merge_entry by apply merged_wf_NoDup.
  by rewrite fmap_app, fold_left_app, IH.
Qed.

Lemma ids_union_first playlists :
  id <$> union_first rules playlists = fold_left add_id (identities rules playlists) [].
Proof.
  unfold union_first, identities.
  assert (forall all,
             id <$> fold_left (fun all content =>
                                 fold_left add_value (merged rules (entries_of content)) all)
                              playlists all
             = fold_left add_id
                 (concat (map (fun content => tv_id rules <$> entries_of content) playlists))
                 (id <$> all)) as H; [|exact (H [])].
  induction playlists as [|d ds IH]; intros all; [done|].
  cbn [fold_left map concat]. rewrite fold_left_app, IH.
  by rewrite ids_add_values, ids_merged, add_ids_absorb.
Qed.

Lemma first_occurrences_add_ids l : first_occurrences l = fold_left add_id l [].
Proof.
  unfold add_id. rewrite first_occurrences_fold. simpl. by rewrite filter_not_in_nil.
Qed.

End CatalogChannels.

(** X5. The channels of the catalog come in the order in which their
    identities are first met: the ids of the catalog are the namespaced
    identities of the entries of the documents, in document and entry order,
    each kept at its first occurrence. *)
Theorem catalog_ids_first_seen remapFile playlists t :
  id <$> catalog (loadAndTransform remapFile playlists t)
  = first_occurrences
      (identities (remappingRules (fst (loadRemappingRules remapFile t))) playlists).
Proof.
  by rewrite catalog_union_first, ids_union_first, first_occurrences_add_ids.
Qed.

(** X6. Every channel of every catalog is well formed: its id is the
    live-TV prefix before its lower-case identity, the default video is the
    channel itself, it has at least one stream, exactly one genre, which is
    not empty, its display name is the name recorded with its attributes,
    and poster and background are the logo. *)
Theorem catalog_channels_ok remapFile playlists t :
  Forall channel_ok (catalog (loadAndTransform remapFile playlists t)).
Proof.
  rewrite catalog_union_first. apply Forall_forall.
  intros ch (content & _ & Hin)%elem_of_union_first.
  pose proof (merged_channel_ok (remappingRules (fst (loadRemappingRules remapFile t)))
                (entries_of content)) as H.
  rewrite Forall_forall in H. by apply H.
Qed.

(** ** Where a channel of the catalog comes from *)

Section ChannelOrigin.

Variable rules : gmap string string.

Lemma elem_of_add_values_fresh ch objs : forall all,
  ch ∈ fold_left add_value objs all ->
  ch ∈ all \/ (ch ∈ objs /\ id ch ∉ id <$> all).
Proof.
  induction objs as [|o objs IH]; intros all H; [by left|].
  simpl in H. apply IH in H as [H|[H Hid]].
  - unfold add_value in H. destruct (existsb _ all) eqn:E; [by left|].
    apply elem_of_app in H as [H|H]; [by left|].
    apply list_elem_of_singleton in H as ->. right. split; [by left|].
    intros Hin%existsb_id_elem. congruence.
  - right. split; [by right|]. intros Hin. apply Hid.
    rewrite ids_add_value. apply elem_of_add_id. by left.
Qed.

Lemma union_first_snoc playlists content :
  union_first rules (playlists ++ [content])
  = fold_left add_value (merged rules (entries_of content)) (union_first rules playlists).
Proof. unfold union_first. by rewrite fold_left_app. Qed.

Lemma merged_elem_obj_for es ch :
  ch ∈ merged rules es ->
  exists X, obj_for rules es X = Some ch /\ id ch = "tv|" +:+ X.
Proof.
  intros Hin. destruct (merged_wf_NoDup rules es) as [Hwf Hnd].
  rewrite Forall_forall in Hwf. destruct (Hwf ch Hin) as (k & Hk & Hl & Hid).
  exists k. split; [|done]. rewrite <- merged_find.
  destruct (list_find _ _) as [[i o]|] eqn:F.
  - apply list_find_Some in F as (Hi & Ho & _). apply list_elem_of_lookup_2 in Hi.
    pose proof (wf_obj_key_id k o (Hwf o Hi) (Is_true_eq_true _ Ho)) as Hido.
    pose proof (filter_id_unique _ ch Hnd Hin) as Hf.
    assert (o ∈ List.filter (fun c => bool_decide (id c = id ch)) (merged rules es)) as Ho'.
    { apply list_elem_of_In, List.filter_In. split; [by apply list_elem_of_In|].
      apply bool_decide_eq_true. congruence. }
    rewrite Hf in Ho'. apply list_elem_of_singleton in Ho'. by subst.
  - apply list_find_None in F. rewrite Forall_forall in F. destruct (F ch Hin).
    unfold has_key. rewrite Hk. apply Is_true_true. by apply bool_decide_eq_true.
Qed.

Lemma union_first_origin playlists ch :
  ch ∈ union_first rules playlists ->
  exists before content after,
    playlists = before ++ content :: after
    /\ (id ch ∉ identities rules before)
    /\ ch ∈ merged rules (entries_of content).
Proof.
  induction playlists as [|d ds IH] using rev_ind; [by intros ?%elem_of_nil|].
  rewrite union_first_snoc. intros [H|[H Hid]]%elem_of_add_values_fresh.
  - destruct (IH H) as (before & content & after & -> & Hb & Hm).
    exists before, content, (after ++ [d]). by rewrite <- app_assoc.
  - exists ds, d, []. split; [done|]. split; [|done].
    intros Hin. apply Hid. rewrite ids_union_first. apply elem_of_add_ids. by right.
Qed.

Lemma genres_of_elem objs ch g : ch ∈ objs -> g ∈ genre ch -> g ∈ genres_of objs.
Proof.
  intros Hc Hg. unfold genres_of. apply fold_set_add_adds.
  apply list_elem_of_In, in_concat. exists (genre ch).
  split; [|by apply list_elem_of_In].
  apply list_elem_of_In, list_elem_of_fmap. eauto.
Qed.

Lemma all_genres_elem playlists content g :
  content ∈ playlists ->
  g ∈ genres_of (merged rules (entries_of content)) ->
  g ∈ all_genres rules playlists.
Proof.
  unfold all_genres. generalize (@nil string).
  induction playlists as [|d ds IH]; intros acc Hc Hg; [by apply elem_of_nil in Hc|].
  cbn [fold_left]. apply elem_of_cons in Hc as [->|Hc]; [|by apply IH].
  assert (forall ds' acc', g ∈ acc' ->
            g ∈ fold_left
                  (fun all content0 =>
                     fold_left (fun s g0 => set_add g0 s)
                               (genres_of (merged rules (entries_of content0))) all)
                  ds' acc') as Hk.
  { induction ds' as [|d' ds' IH']; intros acc' H; [done|].
    cbn [fold_left]. by apply IH', fold_set_add_keeps. }
  by apply Hk, fold_set_add_adds.
Qed.

End ChannelOrigin.

(** X7. Every channel of the catalog is the channel of one document, the
    first with an entry of its identity: it is built from the first entry of
    that document with the identity, and its streams are the streams of all
    the entries of that document with the identity, in order.  Entries of
    other documents add nothing to it. *)
Theorem catalog_channel_origin remapFile playlists t ch :
  let rules := remappingRules (fst (loadRemappingRules remapFile t)) in
  ch ∈ catalog (loadAndTransform remapFile playlists t) ->
  exists before content after X e1 rest,
    playlists = before ++ content :: after
    /\ id ch = "tv|" +:+ X
    /\ (("tv|" +:+ X) ∉ identities rules before)
    /\ List.filter (fun e => bool_decide (channelId_of rules e = X)) (entries_of content)
       = e1 :: rest
    /\ ch = push_urls (map stream_of rest) (new_channel X e1)
    /\ urls (streamInfo ch) = stream_of <$> (e1 :: rest).
Proof.
  intros rules. rewrite catalog_union_first. fold rules.
  intros (before & content & after & -> & Hb & Hm)%union_first_origin.
  apply merged_elem_obj_for in Hm as (X & Ho & Hid).
  unfold obj_for in Ho.
  destruct (List.filter _ (entries_of content)) as [|e1 rest] eqn:E; [done|].
  injection Ho as <-.
  exists before, content, after, X, e1, rest.
  repeat split; try done.
  - by rewrite <- Hid.
  - by rewrite urls_push_urls.
Qed.

Lemma catalog_channel_origin_witness :
  exists ch,
    ch ∈ catalog (loadAndTransform Samples.remapFoo [Samples.docA; Samples.docMerge] constructor)
    /\ id ch = "tv|chbar"
    /\ exists before content after X e1 rest,
         [Samples.docA; Samples.docMerge] = before ++ content :: after
         /\ id ch = "tv|" +:+ X
         /\ (("tv|" +:+ X)
            ∉ identities (remappingRules (fst (loadRemappingRules Samples.remapFoo constructor)))
                before)
         /\ List.filter
              (fun e => bool_decide
                          (channelId_of
                             (remappingRules (fst (loadRemappingRules Samples.remapFoo constructor)))
                             e = X))
              (entries_of content) = e1 :: rest
         /\ ch = push_urls (map stream_of rest) (new_channel X e1)
         /\ urls (streamInfo ch) = stream_of <$> (e1 :: rest).
Proof.
  assert (exists ch,
             catalog (loadAndTransform Samples.remapFoo [Samples.docA; Samples.docMerge] constructor)
               !! 1 = Some ch /\ id ch = "tv|chbar") as (ch & Hc & Hid)
    by (vm_compute; eauto).
  apply list_elem_of_lookup_2 in Hc.
  exists ch. split; [exact Hc|]. split; [exact Hid|].
  exact (catalog_channel_origin Samples.remapFoo [Samples.docA; Samples.docMerge]
           constructor ch Hc).
Defined.

(** X8. The genre of every channel of the catalog is in the genre set of
    the snapshot. *)
Theorem catalog_genres_listed remapFile playlists t ch g :
  ch ∈ catalog (loadAndTransform remapFile playlists t) ->
  g ∈ genre ch ->
  g ∈ s_genres (snd (loadAndTransform remapFile playlists t)).
Proof.
  rewrite catalog_union_first, loadAndTransform_genres.
  intros (content & Hc & Hm)%elem_of_union_first Hg.
  eapply all_genres_elem; [exact Hc|]. by eapply genres_of_elem.
Qed.

Lemma catalog_genres_listed_witness :
  exists ch,
    ch ∈ catalog (loadAndTransform ENOENT [Samples.docA; Samples.docC] constructor)
    /\ "Sport" ∈ genre ch
    /\ "Sport" ∈ s_genres (snd (loadAndTransform ENOENT [Samples.docA; Samples.docC] constructor)).
Proof.
  assert (exists ch,
             catalog (loadAndTransform ENOENT [Samples.docA; Samples.docC] constructor)
               !! 1 = Some ch /\ genre ch = ["Sport"]) as (ch & Hc & Hg)
    by (vm_compute; eauto).
  apply list_elem_of_lookup_2 in Hc.
  assert ("Sport" ∈ genre ch) as Hin by (rewrite Hg; by left).
  exists ch. split; [exact Hc|]. split; [exact Hin|].
  exact (catalog_genres_listed ENOENT [Samples.docA; Samples.docC] constructor ch "Sport" Hc Hin).
Defined.

(** ** Published channels and later runs *)

Section Published.

Lemma load_playlists_heap playlists : forall t agg,
  valid (heap t) (allChannels agg) ->
  valid (heap (fst (fold_left load_playlist playlists (t, agg))))
        (allChannels (snd (fold_left load_playlist playlists (t, agg))))
  /\ exists ext, heap (fst (fold_left load_playlist playlists (t, agg))) = heap t ++ ext.
Proof.
  induction playlists as [|d ds IH]; intros t agg Hv.
  - split; [done|]. exists []. by rewrite app_nil_r.
  - cbn [fold_left]. rewrite load_playlist_eq. cbv zeta.
    destruct (parseM3U_rep d t) as [(Hh & Hc & _) Hres].
    set (objs := merged (remappingRules t) (entries_of d)) in *.
    destruct (add_channels_dup (heap t) objs (length objs) 0 (allChannels agg)
                ltac:(simpl; lia) (valid_app_l _ _ _ Hv)) as [Hv' _].
    rewrite Hres, Hc, Hh.
    match goal with |- context [fold_left load_playlist ds (?t1, ?a1)] =>
      destruct (IH t1 a1) as [Hv2 [ext Hext]] end.
    { cbn [allChannels]. by rewrite Hh. }
    split; [exact Hv2|]. exists (objs ++ ext). by rewrite Hext, Hh, <- app_assoc.
Qed.

Lemma loadAndTransform_heap remapFile playlists t :
  valid (heap (fst (loadAndTransform remapFile playlists t)))
        (s_channels (snd (loadAndTransform remapFile playlists t)))
  /\ exists ext, heap (fst (loadAndTransform remapFile playlists t)) = heap t ++ ext.
Proof.
  unfold loadAndTransform.
  pose proof (loadRemappingRules_heap remapFile t) as Hh.
  destruct (loadRemappingRules remapFile t) as [t1 log]. cbn [fst] in Hh.
  destruct (load_playlists_heap playlists t1
              {| allChannels := []; allGenres := []; allEpgUrls := [] |}
              (Forall_nil_2 _)) as [Hv [ext Hext]].
  destruct (fold_left load_playlist playlists _) as [t2 agg].
  cbn [fst snd s_channels] in *. split; [done|]. exists ext. by rewrite Hext, Hh.
Qed.

End Published.

(** X9. The channel objects a run has returned are never touched again:
    after any later run on the same instance, with any rule file and any
    documents, the references of the earlier snapshot still denote the same
    channels, streams included. *)
Theorem published_channels_never_change remapFile playlists t remapFile' playlists' :
  let out := loadAndTransform remapFile playlists t in
  let later := loadAndTransform remapFile' playlists' (fst out) in
  deref (heap (fst later)) (s_channels (snd out)) = catalog out.
Proof.
  cbv zeta.
  destruct (loadAndTransform_heap remapFile playlists t) as [Hv _].
  destruct (loadAndTransform_heap remapFile' playlists'
              (fst (loadAndTransform remapFile playlists t))) as [_ [ext ->]].
  by apply deref_app_l.
Qed.

(** ** Metadata lines without a stream line, documents without metadata *)

Section Dropped.

Context {A : Type} (emit : M3UChannel -> A -> A).

Lemma parse_lines_metadata_forgets metaLine rest cur acc :
  startsWith "#EXTINF:" (trim metaLine) = true ->
  parse_lines emit 0 (metaLine :: rest) cur acc
  = parse_lines emit 0 (metaLine :: rest) None acc.
Proof. intros H. cbn [parse_lines]. by rewrite H. Qed.

Lemma parse_lines_no_metadata lines : forall acc,
  Forall (fun l => startsWith "#EXTINF:" (trim l) = false) lines ->
  parse_lines emit 0 lines None acc = acc.
Proof.
  induction lines as [|l lines IH]; intros acc H; [done|].
  apply Forall_cons in H as [Hl H]. cbn [parse_lines]. rewrite Hl.
  destruct (startsWith "http" (trim l)); by apply IH.
Qed.

End Dropped.

(** X10. A metadata line that is followed, after its option lines and
    lines the loop passes over, by another metadata line or by the end of
    the document, hands nothing on: the loop goes on from there as if the
    line had not been there. *)
Theorem metadata_without_stream_dropped {A : Type} (emit : M3UChannel -> A -> A)
    (metaLine : string) (opts junk rest : list string)
    (cur : option M3UChannel) (acc : A) :
  startsWith "#EXTINF:" (trim metaLine) = true ->
  Forall (fun l => startsWith "#EXTVLCOPT:" l = true) opts ->
  Forall passed_over junk ->
  match junk ++ rest with
  | l :: _ => startsWith "#EXTVLCOPT:" l = false
  | [] => True
  end ->
  match rest with
  | next :: _ => startsWith "#EXTINF:" (trim next) = true
  | [] => True
  end ->
  parse_lines emit 0 (metaLine :: opts ++ junk ++ rest) cur acc
  = parse_lines emit 0 rest None acc.
Proof.
  intros Hm Ho Hj Hstop Hnext.
  cbn [parse_lines]. rewrite Hm. unfold parseVLCOpts.
  rewrite (parseVLCOpts_from_app opts (junk ++ rest)) by done.
  rewrite parse_lines_skip, parse_lines_passed_over by done.
  destruct rest as [|next rest]; [done|].
  by apply parse_lines_metadata_forgets.
Qed.

Lemma metadata_without_stream_dropped_witness :
  parse_lines (fun e acc => acc ++ [e]) 0
    (dq "#EXTINF:-1 tvg-id='lost',Lost"
       :: ["#EXTVLCOPT:http-user-agent=UA1"] ++ ["rtmp://s/lost"; "# note"]
       ++ [dq "#EXTINF:-1 tvg-id='kept',Kept"; "http://s/kept"])
    None []
  = parse_lines (fun e acc => acc ++ [e]) 0
      [dq "#EXTINF:-1 tvg-id='kept',Kept"; "http://s/kept"] None [].
Proof.
  refine (metadata_without_stream_dropped (fun e acc => acc ++ [e])
            (dq "#EXTINF:-1 tvg-id='lost',Lost")
            ["#EXTVLCOPT:http-user-agent=UA1"] ["rtmp://s/lost"; "# note"]
            [dq "#EXTINF:-1 tvg-id='kept',Kept"; "http://s/kept"] None [] _ _ _ _ _).
  - by vm_compute.
  - repeat constructor.
  - repeat constructor.
  - by vm_compute.
  - by vm_compute.
Defined.

(** X11. A document without any metadata line yields nothing, whatever
    stream lines it has: no entry, no channel, and the uncategorized genre
    alone. *)
Theorem no_metadata_no_channel content t :
  Forall (fun l => startsWith "#EXTINF:" (trim l) = false) (split LF content) ->
  entries_of content = []
  /\ parsed (parseM3U content t) = []
  /\ r_genres (snd (parseM3U content t)) = [uncategorized].
Proof.
  intros H.
  assert (entries_of content = []) as E
    by (unfold entries_of, entries_of_lines; by apply parse_lines_no_metadata).
  split; [done|]. by rewrite parsed_twice, parseM3U_genres_of, E.
Qed.

Lemma no_metadata_no_channel_witness :
  Forall (fun l => startsWith "#EXTINF:" (trim l) = false)
         (split LF (doc ["#EXTM3U"; "http://s/1"; "https://s/2"]))
  /\ entries_of (doc ["#EXTM3U"; "http://s/1"; "https://s/2"]) = []
  /\ parsed (parseM3U (doc ["#EXTM3U"; "http://s/1"; "https://s/2"]) constructor) = []
  /\ r_genres (snd (parseM3U (doc ["#EXTM3U"; "http://s/1"; "https://s/2"]) constructor))
     = [uncategorized].
Proof.
  assert (Forall (fun l => startsWith "#EXTINF:" (trim l) = false)
                 (split LF (doc ["#EXTM3U"; "http://s/1"; "https://s/2"]))) as H
    by (vm_compute; repeat constructor).
  split; [exact H|].
  exact (no_metadata_no_channel (doc ["#EXTM3U"; "http://s/1"; "https://s/2"]) constructor H).
Defined.

(** ** parseVLCOpts *)

Section VLCOpts.

Lemma parseVLCOpts_from_cons hdrs l lines :
  parseVLCOpts_from hdrs (l :: lines)
  = if is_option_line l then
      let hdrs' := if is_user_agent_line l
                   then <["User-Agent" := user_agent_of l]> hdrs else hdrs in
      (fst (parseVLCOpts_from hdrs' lines), S (snd (parseVLCOpts_from hdrs' lines)))
    else (hdrs, 0).
Proof.
  cbn [parseVLCOpts_from]. unfold is_user_agent_line, is_option_line, user_agent_of.
  destruct (startsWith "#EXTVLCOPT:" l); [|done]. cbn [andb]. cbv zeta.
  by destruct (parseVLCOpts_from _ lines).
Qed.

Lemma parseVLCOpts_from_spec lines : forall hdrs,
  let out := parseVLCOpts_from hdrs lines in
  snd out <= length lines
  /\ Forall (fun l => is_option_line l = true) (take (snd out) lines)
  /\ (forall l, lines !! snd out = Some l -> is_option_line l = false)
  /\ (forall k, k ≠ "User-Agent" -> fst out !! k = hdrs !! k).
Proof.
  induction lines as [|l lines IH]; intros hdrs; cbv zeta.
  - cbn. repeat split; try done; try lia.
  - rewrite parseVLCOpts_from_cons. destruct (is_option_line l) eqn:E; cbv zeta.
    + match goal with |- context [parseVLCOpts_from ?h lines] =>
        destruct (IH h) as (Hn & Hall & Hstop & Hk) end.
      cbn [fst snd]. repeat split.
      * simpl. lia.
      * simpl. by constructor.
      * done.
      * intros k Hne. rewrite Hk by done.
        destruct (is_user_agent_line l); [by rewrite lookup_insert_ne|done].
    + cbn. repeat split; try done; try lia. by intros ? [= ->].
Qed.



End VLCOpts.

(** X12. [parseVLCOpts] consumes exactly the run of option lines at the
    head of the lines it is given: the count it returns is within the
    lines, every line it counts is an option line, the line after them, if
    there is one, is not, and the only header it ever sets is User-Agent. *)
Theorem parseVLCOpts_consumes_option_lines lines :
  let out := parseVLCOpts lines in
  snd out <= length lines
  /\ Forall (fun l => is_option_line l = true) (take (snd out) lines)
  /\ (forall l, lines !! snd out = Some l -> is_option_line l = false)
  /\ (forall k, k ≠ "User-Agent" -> fst out !! k = None).
Proof.
  cbv zeta. unfold parseVLCOpts.
  destruct (parseVLCOpts_from_spec lines ∅) as (H1 & H2 & H3 & H4).
  split; [exact H1|]. split; [exact H2|]. split; [exact H3|].
  intros k Hk. rewrite H4 by done. apply lookup_empty.
Qed.



(** ** The attributes of a metadata line *)

Section AttributeValues.

Lemma split_no_sep sep s : Forall (fun p => has_char sep p = false) (split sep s).
Proof.
  induction s as [|c s IH]; [by repeat constructor|]. cbn [split].
  destruct (Ascii.eqb c sep) eqn:E; [by constructor|].
  destruct (split sep s) as [|h t].
  - repeat constructor. simpl. by rewrite E.
  - apply Forall_cons in IH as [Hh Ht]. constructor; [|done]. simpl. by rewrite E.
Qed.

Lemma remove_all_none c s : has_char c (remove_all c s) = false.
Proof.
  induction s as [|d s IH]; [done|]. simpl.
  destruct (Ascii.eqb d c) eqn:E; [done|]. simpl. by rewrite E.
Qed.

Lemma remove_all_keeps c d s : has_char d s = false -> has_char d (remove_all c s) = false.
Proof.
  induction s as [|x s IH]; [done|]. simpl.
  intros [Hx Hs]%orb_false_elim. destruct (Ascii.eqb x c); [by apply IH|].
  simpl. by rewrite Hx, IH.
Qed.

Lemma parse_tvg_step_values (P : string -> Prop) (ms : list string) :
  (forall m key value rest, split "="%char m = key :: value :: rest ->
                            P (remove_all quote value)) ->
  forall (tvgData : gmap string string),
    (forall k v, tvgData !! k = Some v -> P v) ->
    forall k v,
      fold_left
        (fun tvgData m =>
           match split "="%char m with
           | key :: value :: _ =>
               <[replace "tvg-" EmptyString key := remove_all quote value]> tvgData
           | _ => tvgData
           end) ms tvgData !! k = Some v ->
      P v.
Proof.
  intros HP. induction ms as [|m ms IH]; intros tvgData H k v; [by apply H|].
  cbn [fold_left]. apply IH. intros k' v'.
  destruct (split "="%char m) as [|key [|value rest]] eqn:E; try apply H.
  destruct (decide (replace "tvg-" EmptyString key = k')) as [<-|Hne].
  - rewrite lookup_insert_eq. intros [= <-]. by eapply HP.
  - rewrite lookup_insert_ne by done. apply H.
Qed.

End AttributeValues.

(** X14. No attribute value read off a metadata line ever holds an equals
    sign or a double quote, whatever the line: a quoted value is cut at its
    first equals sign. *)
Theorem attribute_values_hold_no_equals metadata k v :
  parse_tvg metadata !! k = Some v ->
  has_char "="%char v = false /\ has_char quote v = false.
Proof.
  unfold parse_tvg.
  apply (parse_tvg_step_values
           (fun v => has_char "="%char v = false /\ has_char quote v = false)).
  - intros m key value rest E. split; [|apply remove_all_none].
    apply remove_all_keeps.
    pose proof (split_no_sep "="%char m) as H. rewrite E in H.
    by apply Forall_cons in H as [_ [H _]%Forall_cons].
  - intros k' v'. by rewrite lookup_empty.
Qed.

Lemma attribute_values_hold_no_equals_witness :
  parse_tvg (dq "-1 tvg-logo='http://l/a.png?s=1&t=2',A") !! "logo" = Some "http://l/a.png?s"
  /\ has_char "="%char "http://l/a.png?s" = false
  /\ has_char quote "http://l/a.png?s" = false.
Proof.
  assert (parse_tvg (dq "-1 tvg-logo='http://l/a.png?s=1&t=2',A") !! "logo"
          = Some "http://l/a.png?s") as H by (vm_compute; reflexivity).
  split; [exact H|].
  exact (attribute_values_hold_no_equals _ _ _ H).
Defined.


(** ** The list of playlist locations *)

Section UrlList.

Lemma trimStart_blank s : blank s = true -> trimStart s = EmptyString.
Proof.
  induction s as [|c s IH]; [done|]. simpl.
  intros [Hc Hs]%andb_prop. rewrite Hc. by apply IH.
Qed.

Lemma trimEnd_nonblank c r : is_ws c = false -> trimEnd (String c r) ≠ EmptyString.
Proof. intros W. cbn [trimEnd]. destruct (trimEnd r); by rewrite ?W. Qed.

Lemma trim_empty_blank s : trim s = EmptyString <-> blank s = true.
Proof.
  unfold trim. split.
  - intros H. induction s as [|c s IH]; [done|]. simpl in *.
    destruct (is_ws c) eqn:W; [by apply IH|].
    by destruct (trimEnd_nonblank c s W).
  - intros H. by rewrite trimStart_blank.
Qed.

Lemma split_blank sep s : blank s = true -> Forall (fun l => blank l = true) (split sep s).
Proof.
  induction s as [|c s IH]; [by repeat constructor|].
  simpl. intros [Hc Hs]%andb_prop. specialize (IH Hs).
  destruct (Ascii.eqb c sep); [by constructor|].
  destruct (split sep s) as [|h t].
  - repeat constructor. simpl. by rewrite Hc.
  - apply Forall_cons in IH as [Hh Ht]. constructor; [|done]. simpl. by rewrite Hc, Hh.
Qed.

Lemma url_list_blank location content :
  trim content = EmptyString -> url_list location content = [].
Proof.
  intros H. unfold url_list. rewrite H.
  assert (startsWith "#EXTM3U" EmptyString = false) as -> by done.
  apply trim_empty_blank in H. pose proof (split_blank LF content H) as Hl.
  induction Hl as [|l ls Hb _ IH]; [done|]. simpl.
  apply trim_empty_blank in Hb. by rewrite bool_decide_true.
Qed.

End UrlList.

(** X15. A fetched list of playlists that holds white space only names no
    playlist: [readExternalFile] returns the empty list, not an error. *)
Theorem blank_list_no_playlist url localFilePath content localFile :
  trim content = EmptyString ->
  readExternalFile url localFilePath (Fetched content) localFile = Some [].
Proof.
  intros H. unfold readExternalFile. by rewrite url_list_blank.
Qed.

Lemma blank_list_no_playlist_witness :
  trim (String LF (String " " (String CR (String LF EmptyString)))) = EmptyString
  /\ readExternalFile "http://x/list" "local-playlist.m3u"
       (Fetched (String LF (String " " (String CR (String LF EmptyString))))) FetchFailed
     = Some [].
Proof.
  assert (trim (String LF (String " " (String CR (String LF EmptyString)))) = EmptyString) as H
    by (by vm_compute).
  split; [exact H|].
  exact (blank_list_no_playlist "http://x/list" "local-playlist.m3u" _ FetchFailed H).
Defined.

(** When the fetch fails the fallback never succeeds: the error is thrown
    whatever the local file holds. *)
Lemma readExternalFile_fallback_throws url localFilePath localFile :
  readExternalFile url localFilePath FetchFailed localFile = None.
Proof. reflexivity. Qed.

(** ** The configuration *)

(** X16. On the configuration the module builds, whatever the environment,
    [updateEPGUrl] changes nothing: the guide URL is always set already, by
    the environment or by the default. *)
Theorem updateEPGUrl_never_changes_module_config env url :
  truthy (Config.EPG_URL (Config.config env)) = true
  /\ Config.updateEPGUrl url (Config.config env) = Config.config env.
Proof.
  assert (truthy (Config.EPG_URL (Config.config env)) = true) as H.
  { cbn. unfold or_else. by destruct (Config.env_EPG_URL env) as [[|c s]|]. }
  split; [done|]. unfold Config.updateEPGUrl. by rewrite H.
Qed.

(** X17. [updateEPGUrl] keeps the first usable URL: once it has been
    called with a URL that is not empty, the guide URL is set and no later
    call changes the configuration. *)
Theorem updateEPGUrl_first_url_stays c url url' :
  truthy url = true ->
  truthy (Config.EPG_URL (Config.updateEPGUrl url c)) = true
  /\ Config.updateEPGUrl url' (Config.updateEPGUrl url c) = Config.updateEPGUrl url c.
Proof.
  intros Hu.
  assert (truthy (Config.EPG_URL (Config.updateEPGUrl url c)) = true) as H.
  { unfold Config.updateEPGUrl. rewrite Hu.
    destruct (truthy (Config.EPG_URL c)) eqn:E; by cbn. }
  split; [done|]. unfold Config.updateEPGUrl at 1. by rewrite H.
Qed.

Lemma updateEPGUrl_first_url_stays_witness :
  let unset :=
    {| Config.port := inr 10000%N; Config.M3U_URL := "http://x/list";
       Config.EPG_URL := None; Config.enableEPG := true;
       Config.PROXY_URL := None; Config.PROXY_PASSWORD := None;
       Config.FORCE_PROXY := false;
       Config.cacheSettings := Config.cacheSettings (Config.config
         {| Config.env_PORT := None; Config.env_EPG_URL := None; Config.env_PROXY_URL := None;
            Config.env_PROXY_PASSWORD := None; Config.env_FORCE_PROXY := None |});
       Config.epgSettings := Config.epgSettings (Config.config
         {| Config.env_PORT := None; Config.env_EPG_URL := None; Config.env_PROXY_URL := None;
            Config.env_PROXY_PASSWORD := None; Config.env_FORCE_PROXY := None |});
       Config.manifest := Config.manifest (Config.config
         {| Config.env_PORT := None; Config.env_EPG_URL := None; Config.env_PROXY_URL := None;
            Config.env_PROXY_PASSWORD := None; Config.env_FORCE_PROXY := None |}) |} in
  Config.EPG_URL (Config.updateEPGUrl (Some "http://x/epg1") unset) = Some "http://x/epg1"
  /\ Config.EPG_URL (Config.updateEPGUrl (Some "http://x/epg2")
                        (Config.updateEPGUrl (Some "http://x/epg1") unset))
     = Some "http://x/epg1".
Proof.
  cbv zeta. split; [done|].
  match goal with |- Config.EPG_URL (Config.updateEPGUrl ?u2 (Config.updateEPGUrl ?u1 ?c)) = _ =>
    rewrite (proj2 (updateEPGUrl_first_url_stays c u1 u2 eq_refl)) end.
  done.
Defined.

(** ** The conflict warning *)

(** X18. When a rule applies to an entry, the test that decides the
    conflict warning holds exactly when the entry is merged into a channel
    already there, and fails exactly when a new channel is built. *)
Theorem conflict_warning_iff_merged channel t remapped :
  remappingRules t !! toLowerCase (or_else (tvg channel !! "id") (trim (name channel)))
  = Some remapped ->
  isConflict t (toLowerCase remapped) = true
  <-> snd (transformChannelToStremio channel t) = None.
Proof.
  intros Hr. unfold transformChannelToStremio, isConflict, channelId_of. cbv zeta.
  rewrite Hr. generalize (toLowerCase remapped). intros X.
  assert (existsb (has_tvg_id (heap t) X) (channels t) = true
          <-> is_Some (List.find (has_tvg_id (heap t) X) (channels t))) as ->.
  { induction (channels t) as [|r l IH]; simpl.
    - split; [done|by intros [? ?]].
    - destruct (has_tvg_id (heap t) X r); simpl; [|exact IH]. split; eauto. }
  destruct (List.find _ _); simpl; split; try done; try (by intros [? ?]); eauto.
Qed.

Lemma conflict_warning_iff_merged_witness :
  let t := fst (parseM3U Samples.docMerge
                  (fst (loadRemappingRules Samples.remapFoo constructor))) in
  remappingRules t
    !! toLowerCase (or_else (tvg Samples.fooEntry !! "id") (trim (name Samples.fooEntry)))
  = Some "chbar"
  /\ isConflict t (toLowerCase "chbar") = true
  /\ snd (transformChannelToStremio Samples.fooEntry t) = None.
Proof.
  cbv zeta.
  assert (remappingRules
            (fst (parseM3U Samples.docMerge
                    (fst (loadRemappingRules Samples.remapFoo constructor))))
            !! toLowerCase (or_else (tvg Samples.fooEntry !! "id") (trim (name Samples.fooEntry)))
          = Some "chbar") as H by (vm_compute; reflexivity).
  assert (isConflict
            (fst (parseM3U Samples.docMerge
                    (fst (loadRemappingRules Samples.remapFoo constructor))))
            (toLowerCase "chbar") = true) as Hc by (by vm_compute).
  split; [exact H|]. split; [exact Hc|].
  exact (proj1 (conflict_warning_iff_merged Samples.fooEntry _ "chbar" H) Hc).
Defined.

(** ** Carriage returns *)

Section CarriageReturn.

Lemma with_cr_cons c s : with_cr (String c s) = String c (with_cr s).
Proof. reflexivity. Qed.

Lemma trimEnd_with_cr s : trimEnd (with_cr s) = trimEnd s.
Proof.
  induction s as [|c s IH]; [done|].
  rewrite with_cr_cons. cbn [trimEnd]. by rewrite IH.
Qed.

Lemma trimStart_with_cr s :
  trimStart (with_cr s) = if blank s then EmptyString else with_cr (trimStart s).
Proof.
  induction s as [|c s IH]; [done|].
  rewrite with_cr_cons. cbn [trimStart blank]. destruct (is_ws c); [exact IH|done].
Qed.

Lemma trim_with_cr s : trim (with_cr s) = trim s.
Proof.
  unfold trim. rewrite trimStart_with_cr. destruct (blank s) eqn:B.
  - by rewrite trimStart_blank.
  - apply trimEnd_with_cr.
Qed.

Lemma startsWith_with_cr p : forall l,
  has_char CR p = false -> startsWith p (with_cr l) = startsWith p l.
Proof.
  unfold startsWith. induction p as [|a p IH]; intros l H; [by destruct l|].
  simpl in H. apply orb_false_elim in H as [Ha Hp].
  destruct l as [|b l].
  - change (with_cr EmptyString) with (String CR EmptyString). cbn [String.prefix].
    destruct (ascii_dec a CR) as [->|]; [|done].
    by rewrite Ascii.eqb_refl in Ha.
  - rewrite with_cr_cons. cbn [String.prefix]. destruct (ascii_dec a b); [by apply IH|done].
Qed.

Lemma startsWith_length p : forall l,
  startsWith p l = true -> String.length p <= String.length l.
Proof.
  unfold startsWith. induction p as [|a p IH]; intros l H; [simpl; lia|].
  destruct l as [|b l]; [done|]. cbn [String.prefix] in H.
  destruct (ascii_dec a b); [|done]. apply IH in H. simpl. lia.
Qed.

Lemma substring_from_with_cr n : forall l,
  n <= String.length l -> substring_from n (with_cr l) = with_cr (substring_from n l).
Proof.
  induction n as [|n IH]; intros l H; [done|].
  destruct l as [|b l]; [simpl in H; lia|].
  rewrite with_cr_cons. cbn [substring_from]. apply IH. simpl in H. lia.
Qed.

Lemma is_option_line_with_cr l : is_option_line (with_cr l) = is_option_line l.
Proof. unfold is_option_line. by apply startsWith_with_cr. Qed.

Lemma option_text_with_cr l :
  is_option_line l = true ->
  trim (substring_from (String.length "#EXTVLCOPT:") (with_cr l))
  = trim (substring_from (String.length "#EXTVLCOPT:") l).
Proof.
  intros H%startsWith_length. by rewrite substring_from_with_cr, trim_with_cr.
Qed.

Lemma parseVLCOpts_from_with_cr lines : forall hdrs,
  parseVLCOpts_from hdrs (map with_cr lines) = parseVLCOpts_from hdrs lines.
Proof.
  induction lines as [|l lines IH]; intros hdrs; [done|].
  cbn [map]. rewrite !parseVLCOpts_from_cons, is_option_line_with_cr.
  destruct (is_option_line l) eqn:E; [|done].
  unfold is_user_agent_line, user_agent_of.
  rewrite is_option_line_with_cr, E, option_text_with_cr by done.
  cbv zeta. by rewrite IH.
Qed.

Lemma parse_lines_with_cr {A : Type} (emit : M3UChannel -> A -> A) lines :
  forall skip cur acc,
    parse_lines emit skip (map with_cr lines) cur acc = parse_lines emit skip lines cur acc.
Proof.
  induction lines as [|raw rest IH]; intros skip cur acc; [done|].
  cbn [map parse_lines]. destruct skip as [|k]; [|apply IH].
  rewrite trim_with_cr. unfold parseVLCOpts. rewrite parseVLCOpts_from_with_cr.
  destruct (startsWith "#EXTINF:" (trim raw)).
  { destruct (parseVLCOpts_from ∅ rest). apply IH. }
  destruct (startsWith "http" (trim raw)); [|apply IH].
  destruct cur; apply IH.
Qed.

End CarriageReturn.

(** X19. Carriage returns at the ends of lines do not matter to the
    playlist loop nor to the rule file: the lines of a document with a
    carriage return after each give the same entries, with the same names,
    attributes, headers and stream URLs, and a rule line with a carriage
    return after it is read as the line without. *)
Theorem carriage_returns_ignored :
  (forall lines, entries_of_lines (map with_cr lines) = entries_of_lines lines)
  /\ (forall st line, rule_line st (with_cr line) = rule_line st line).
Proof.
  split.
  - intros lines. apply parse_lines_with_cr.
  - intros [rules log] line. unfold rule_line. by rewrite trim_with_cr.
Qed.

(** The list of playlist locations keeps the carriage returns. *)
Example url_list_keeps_carriage_returns :
  url_list "http://x/list"
           (with_cr "http://a/1.m3u" +:+ String LF EmptyString +:+ "http://b/2.m3u")
  = [with_cr "http://a/1.m3u"; "http://b/2.m3u"].
Proof. by vm_compute. Qed.

(** ** Names and stream URLs *)

Section NamesAndUrls.

Lemma has_char_trimStart c s : has_char c s = false -> has_char c (trimStart s) = false.
Proof.
  induction s as [|d s IH]; [done|]. simpl.
  intros [Hd Hs]%orb_false_elim. destruct (is_ws d); [by apply IH|].
  simpl. by rewrite Hd, Hs.
Qed.

Lemma has_char_trimEnd c s : has_char c s = false -> has_char c (trimEnd s) = false.
Proof.
  induction s as [|d s IH]; [done|]. simpl.
  intros [Hd Hs]%orb_false_elim. specialize (IH Hs).
  destruct (trimEnd s).
  - destruct (is_ws d); [done|]. simpl. by rewrite Hd.
  - simpl in *. by rewrite Hd, IH.
Qed.

Lemma has_char_trim c s : has_char c s = false -> has_char c (trim s) = false.
Proof. intros H. by apply has_char_trimEnd, has_char_trimStart. Qed.

Lemma last_Forall {B : Type} (P : B -> Prop) (l : list B) d :
  Forall P l -> P d -> P (List.last l d).
Proof.
  induction 1 as [|x l Hx Hl IH]; [done|]. intros Hd.
  destruct l; [done|]. by apply IH.
Qed.

Lemma entries_http lines : forall skip cur es,
  Forall (fun e => http_stream (stream_of e)) es ->
  Forall (fun e => http_stream (stream_of e))
         (parse_lines (fun e acc => acc ++ [e]) skip lines cur es).
Proof.
  induction lines as [|raw rest IH]; intros skip cur es H; [done|].
  cbn [parse_lines]. destruct skip as [|k]; [|by apply IH].
  destruct (startsWith "#EXTINF:" (trim raw)).
  { destruct (parseVLCOpts rest). by apply IH. }
  destruct (startsWith "http" (trim raw)) eqn:E; [|by apply IH].
  destruct cur as [c|]; [|by apply IH].
  apply IH, Forall_app. split; [done|]. apply Forall_singleton.
  exists (trim raw). repeat split; [done|apply trim_idem].
Qed.

End NamesAndUrls.

(** X20. The display name read off a metadata line never holds a comma
    and has no white space around it: it is what follows the last comma of
    the line. *)
Theorem entry_name_holds_no_comma line hdrs :
  has_char ","%char (name (parse_extinf line hdrs)) = false
  /\ trim (name (parse_extinf line hdrs)) = name (parse_extinf line hdrs).
Proof.
  unfold parse_extinf. cbv zeta. cbn [name]. split; [|apply trim_idem].
  apply has_char_trim, last_Forall; [apply split_no_sep|done].
Qed.

(** X21. Every stream of every channel of every catalog has a URL, and the
    URL begins with http and has no white space around it. *)
Theorem catalog_streams_are_http remapFile playlists t ch s :
  ch ∈ catalog (loadAndTransform remapFile playlists t) ->
  s ∈ urls (streamInfo ch) ->
  http_stream s.
Proof.
  rewrite catalog_union_first.
  intros (content & _ & Hm)%elem_of_union_first Hs.
  apply merged_elem_obj_for in Hm as (X & Ho & _). unfold obj_for in Ho.
  destruct (List.filter _ (entries_of content)) as [|e1 rest] eqn:E; [done|].
  injection Ho as <-. rewrite urls_push_urls in Hs.
  change (urls (streamInfo (new_channel X e1)) ++ map stream_of rest)
    with (stream_of <$> (e1 :: rest)) in Hs.
  apply list_elem_of_fmap in Hs as (e & -> & He).
  rewrite <- E in He. apply list_elem_of_In, List.filter_In in He as [He _].
  pose proof (entries_http (split LF content) 0 None [] (Forall_nil_2 _)) as H.
  rewrite Forall_forall in H. by apply H, list_elem_of_In.
Qed.

Lemma catalog_streams_are_http_witness :
  exists ch s,
    ch ∈ catalog (loadAndTransform ENOENT [Samples.docA] constructor)
    /\ s ∈ urls (streamInfo ch)
    /\ su_url s = Some "http://a/1"
    /\ http_stream s.
Proof.
  assert (exists ch s,
             catalog (loadAndTransform ENOENT [Samples.docA] constructor) !! 0 = Some ch
             /\ urls (streamInfo ch) !! 0 = Some s
             /\ su_url s = Some "http://a/1") as (ch & s & Hc & Hs & Hu)
    by (vm_compute; eauto).
  apply list_elem_of_lookup_2 in Hc. apply list_elem_of_lookup_2 in Hs.
  exists ch, s. split; [exact Hc|]. split; [exact Hs|]. split; [exact Hu|].
  exact (catalog_streams_are_http ENOENT [Samples.docA] constructor ch s Hc Hs).
Defined.
